(** * questionary: the form engine ([questionary/form.py]) and the argument
    checks of [select] ([questionary/prompts/select.py])

    A shallow embedding of the two Python modules and the properties of
    their specification.  Python dictionaries are stdpp [gmap]s, the
    terminal and the user behind it are an abstract [World], and Python
    exceptions are the left summand of a result. *)

From stdpp Require Import base gmap strings list fin_maps pretty.

Set Warnings "-clear-no-such-hyp".

Open Scope string_scope.

(** ** Python values and exceptions *)

(** The answers a prompt can produce: strings, booleans, numbers, [None],
    lists of those. *)
#[warnings="-register-all"]
Inductive value :=
| VNone
| VBool (b : bool)
| VInt (n : Z)
| VStr (s : string)
| VList (l : list value).

(** A key of the [values] dictionary handed to a skip condition: a
    [Question] object (compared by identity) or a field key. *)
Definition vkey : Type := nat + string.

(** The exception classes that matter to the two modules.  [KeyError k]
    stands for the class and its subclasses (what [except KeyError] catches),
    with the key that was missing; [OtherError cls msg] is an exception of
    any class that is none of the others. *)
Inductive exn :=
| KeyError (k : vkey)
| KeyboardInterrupt
| DependencyError (msg : string)
| ValueError (msg : string)
| TypeError (msg : string)
| OtherError (cls msg : string).

Definition is_KeyError (e : exn) : bool :=
  match e with KeyError _ => true | _ => false end.

(** One observation per visit of a field by the loop of [Form.unsafe_ask]:
    the skip condition raised [KeyError] (caught: a pending dependency), the
    question was asked (with what it returned or raised), or the question's
    default was stored. *)
Inductive event :=
| EvPending (k : string)
| EvAsked (k : string) (r : exn + value)
| EvDefaulted (k : string) (v : value).





Section FormEngine.

Context {World : Type}.

(** The state outside the form: the terminal and its user, and the lines
    written by [print]. *)
Record Sys := mkSys { world : World; stdout : list string }.

Definition print (line : string) (s : Sys) : Sys :=
  mkSys (world s) (stdout s ++ [line]).

(** ** A state, exception and log monad for the body of the loop *)

Record Res (A : Type) := mkRes {
  outcome : exn + A;
  sys : Sys;
  log : list event
}.
Arguments mkRes {A}.
Arguments outcome {A}.
Arguments sys {A}.
Arguments log {A}.

Definition M (A : Type) : Type := Sys → Res A.

Definition ret {A} (a : A) : M A := λ s, mkRes (inr a) s [].

Definition raise {A} (e : exn) : M A := λ s, mkRes (inl e) s [].

Definition tell (ev : event) : M unit := λ s, mkRes (inr tt) s [ev].

Definition bind {A B} (m : M A) (k : A → M B) : M B := λ s,
  let r := m s in
  match outcome r with
  | inl e => mkRes (inl e) (sys r) (log r)
  | inr a => let r' := k a (sys r) in
             mkRes (outcome r') (sys r') (log r ++ log r')
  end.

(** [try: m except KeyError: h] *)
Definition try_except_KeyError {A} (m : M A) (h : M A) : M A := λ s,
  let r := m s in
  match outcome r with
  | inl (KeyError _) => let r' := h (sys r) in
                        mkRes (outcome r') (sys r') (log r ++ log r')
  | _ => r
  end.

Notation "'let*' x := m 'in' k" := (bind m (λ x, k))
  (at level 10, x name, m at level 100, k at level 200,
   format "'[v' 'let*'  x  :=  m  'in' '/' k ']'").
Notation "m >> k" := (bind m (λ _, k))
  (at level 100, right associativity).

(** ** The data model of [form.py] *)

(** [questionary.question.Question], as far as the form uses it: an
    identity (two fields may hold the same object), the [default] attribute
    and [unsafe_ask(patch_stdout)], which talks to the user and returns an
    answer or raises. *)
Record Question := mkQuestion {
  question_id : nat;
  question_default : value;
  question_unsafe_ask : bool → Sys → (exn + value) * Sys
}.

(** [FormField = namedtuple("FormField", ["key", "question"])] *)
Record FormField := mkFormField { key : string; question : Question }.

(** A skip condition is called on the [values] dictionary and returns a
    truth value or raises. *)
Definition SkipCondition : Type := gmap vkey value → exn + bool.

Record Form := mkForm {
  form_fields : list FormField;
  skip_conditions : gmap string SkipCondition
}.

(** [Form.__init__]: the fields given, no skip condition *)
Definition Form_init (fields : list FormField) : Form := mkForm fields ∅.

(** [form(kwargs)], the keyword arguments in their order *)
Definition form (kwargs : list (string * Question)) : Form :=
  Form_init (map (λ kq, mkFormField kq.1 kq.2) kwargs).

(** [Form.skip_if(self, conditions)]: the conditions are stored in the
    order of the keyword arguments, and [self] is returned. *)
Definition skip_if (self : Form) (conditions : list (string * SkipCondition))
  : Form :=
  mkForm (form_fields self)
         (foldl (λ m kc, <[kc.1 := kc.2]> m) (skip_conditions self) conditions).

(** ** [Form.unsafe_ask] *)

(** [values = {f.question: answers[f.key] for f in self.form_fields
               if f.key in answers}; values.update(answers)] *)
Definition values_view (fields : list FormField) (answers : gmap string value)
  : gmap vkey value :=
  let by_question :=
    foldl (λ m f, match answers !! key f with
                  | Some v => <[inl (question_id (question f)) := v]> m
                  | None => m
                  end) (∅ : gmap vkey value) fields in
  kmap (inr : string → vkey) answers ∪ by_question.

(** [skip(values)], logging a [KeyError] as a pending dependency *)
Definition call_skip (k : string) (skip : SkipCondition)
    (values : gmap vkey value) : M bool :=
  match skip values with
  | inl (KeyError a) => tell (EvPending k) >> raise (KeyError a)
  | inl e => raise e
  | inr b => ret b
  end.

(** [field.question.unsafe_ask(patch_stdout)], logged *)
Definition call_ask (k : string) (q : Question) (patch_stdout : bool)
  : M value := λ s,
  let '(r, s') := question_unsafe_ask q patch_stdout s in
  mkRes r s' [EvAsked k r].

(** The body of [for field in self.form_fields]; it returns the updated
    [answers]. *)
Definition field_body (self : Form) (patch_stdout : bool)
    (answers : gmap string value) (field : FormField)
  : M (gmap string value) :=
  let skip : SkipCondition :=
    match answers !! key field with
    | Some _ => λ _, inr true
    | None => match skip_conditions self !! key field with
              | Some c => c
              | None => λ _, inr false
              end
    end in
  let values := values_view (form_fields self) answers in
  try_except_KeyError
    (let* b := call_skip (key field) skip values in
     if negb b then
       let* answer := call_ask (key field) (question field) patch_stdout in
       ret (<[key field := answer]> answers)
     else
       tell (EvDefaulted (key field) (question_default (question field))) >>
       ret (<[key field := question_default (question field)]> answers))
    (ret answers).

(** One pass: the [for] loop over the fields still to visit. *)
Fixpoint for_fields (self : Form) (patch_stdout : bool)
    (fields : list FormField) (answers : gmap string value)
  : M (gmap string value) :=
  match fields with
  | [] => ret answers
  | field :: rest =>
      let* answers' := field_body self patch_stdout answers field in
      for_fields self patch_stdout rest answers'
  end.

(** [all(f.key in answers for f in self.form_fields)] *)
Definition all_answered (self : Form) (answers : gmap string value) : bool :=
  forallb (λ f, bool_decide (is_Some (answers !! key f))) (form_fields self).

(** What a call of [unsafe_ask] or [ask] leaves: the mapping returned or
    the exception raised, the state outside, and the log of each pass. *)
Record Run := mkRun {
  result : exn + gmap string value;
  final : Sys;
  passes : list (list event)
}.

Definition dependency_message : string :=
  "Dependencies in conditional skip_if cannot be resolved. please make sure there are no circular dependencies in your skip_if conditions".

Definition add_pass (p : list event) (r : Run) : Run :=
  mkRun (result r) (final r) (p :: passes r).

(** The [while] loop; [fuel] bounds the number of passes, [None] is a loop
    that needs more. *)
Fixpoint while_loop (fuel : nat) (self : Form) (patch_stdout : bool)
    (previous_count : nat) (answers : gmap string value) (s : Sys)
  : option Run :=
  if all_answered self answers then Some (mkRun (inr answers) s [])
  else
    match fuel with
    | O => None
    | S fuel' =>
        let r := for_fields self patch_stdout (form_fields self) answers s in
        match outcome r with
        | inl e => Some (mkRun (inl e) (sys r) [log r])
        | inr answers' =>
            if Nat.eqb previous_count (size answers')
            then Some (mkRun (inl (DependencyError dependency_message))
                             (sys r) [log r])
            else add_pass (log r)
                   <$> while_loop fuel' self patch_stdout (size answers')
                                  answers' (sys r)
        end
    end.

(** [Form.unsafe_ask(self, patch_stdout)]: a pass that does not raise adds
    a key, so there are no more passes than fields
    ([unsafe_ask_returns] below). *)
Definition unsafe_ask (self : Form) (patch_stdout : bool) (s : Sys)
  : option Run :=
  while_loop (length (form_fields self)) self patch_stdout 0 ∅ s.

(** [Form.ask(self, patch_stdout, kbi_msg)] *)
Definition ask (self : Form) (patch_stdout : bool) (kbi_msg : string)
    (s : Sys) : option Run :=
  match unsafe_ask self patch_stdout s with
  | Some r =>
      match result r with
      | inl KeyboardInterrupt =>
          Some (mkRun (inr ∅)
                      (print "" (print kbi_msg (print "" (final r))))
                      (passes r))
      | _ => Some r
      end
  | None => None
  end.

(** ** Vocabulary of the specification *)

(** The field keys of a form, as a set. *)
Definition field_keys (self : Form) : gset string :=
  list_to_set (key <$> form_fields self).

(** A skip condition that reads the answer stored under [k] and decides
    from it: [lambda values: p(values[k])].  The subscript raises
    [KeyError] when [k] is missing. *)
Definition reads (k : vkey) (p : value → bool) : SkipCondition :=
  λ values, match values !! k with
            | Some v => inr (p v)
            | None => inl (KeyError k)
            end.

(** A question whose outcome does not depend on the state it is asked
    in. *)
Definition deterministic (q : Question) : Prop :=
  ∀ patch_stdout s1 s2,
    (question_unsafe_ask q patch_stdout s1).1
    = (question_unsafe_ask q patch_stdout s2).1.

(** The value [v] comes from a field of key [k]: it is the default of the
    field's question, or what that question produced in some state. *)
Definition from_field (self : Form) (patch_stdout : bool) (k : string)
    (v : value) : Prop :=
  ∃ f, f ∈ form_fields self ∧ key f = k
       ∧ (v = question_default (question f)
          ∨ ∃ s1 s2,
              question_unsafe_ask (question f) patch_stdout s1 = (inr v, s2)).

(** In the words of the specification: asking each question once, in
    registration order, every one producing a value. *)
Fixpoint ask_in_order (patch_stdout : bool) (fields : list FormField)
    (s : Sys) : option (list value * Sys) :=
  match fields with
  | [] => Some ([], s)
  | f :: rest =>
      match question_unsafe_ask (question f) patch_stdout s with
      | (inr v, s') =>
          match ask_in_order patch_stdout rest s' with
          | Some (vs, s'') => Some (v :: vs, s'')
          | None => None
          end
      | (inl _, _) => None
      end
  end.




End FormEngine.

Arguments Sys : clear implicits.
Arguments Question : clear implicits.
Arguments FormField : clear implicits.
Arguments Form : clear implicits.
Arguments Run : clear implicits.

Arguments Res : clear implicits.
Arguments mkRes {World A}.
Arguments outcome {World A}.
Arguments sys {World A}.
Arguments log {World A}.

(** ** The argument checks of [select] *)

(** [questionary.prompts.common.Choice], as far as [select] looks at it:
    the [shortcut_key] attribute, [None] when it is Python's [None]. *)
Record Choice := mkChoice {
  title : string;
  shortcut_key : option string
}.

(** An element of [choices]: a string, a [Choice] (or [Separator]) object
    or a dictionary. *)
Inductive choice_item :=
| ItemText (text : string)
| ItemChoice (c : Choice)
| ItemDict (entries : list (string * value)).

(** [getattr(c, "shortcut_key", "")] *)
Definition getattr_shortcut_key (c : choice_item) : value :=
  match c with
  | ItemChoice c => match shortcut_key c with
                    | Some k => VStr k
                    | None => VNone
                    end
  | ItemText _ | ItemDict _ => VStr ""
  end.

(** [x in ['i', 'j']] *)
Definition in_i_j (x : value) : bool :=
  match x with
  | VStr k => bool_decide (k = "i") || bool_decide (k = "j")
  | _ => false
  end.

(** The arguments of [select] that its checks and the construction of the
    [InquirerControl] read; [choices] is [None] for Python's [None]. *)
Record select_args := mkSelectArgs {
  message : string;
  choices : option (list choice_item);
  default : option string;
  use_shortcuts : bool;
  use_indicator : bool;
  use_pointer : bool;
  use_arrow_keys : bool;
  use_ij_keys : bool;
  show_selected : bool;
  start : option (string + nat)
}.

(** The default values of the signature. *)
Definition select_call (message : string)
    (choices : option (list choice_item)) : select_args :=
  mkSelectArgs message choices None false false true true true true None.

(** What [select] hands to [InquirerControl] once the checks are passed. *)
Record InquirerControl_call := mkInquirerControl {
  ic_choices : list choice_item;
  ic_default : option string;
  ic_use_indicator : bool;
  ic_use_shortcuts : bool;
  ic_use_pointer : bool;
  ic_show_selected : bool;
  ic_pointed_at : option (string + nat)
}.

Definition no_movement_message : string :=
  "Some option to move the selection is required. Arrow keys or shortcuts".

Definition ij_message : string :=
  "A choice is trying to register i/j as a shortcut key when they are in use as arrow keys disable one or the other.".

Definition no_choices_message : string :=
  "A list of choices needs to be provided.".

Definition too_many_message (available given : nat) : string :=
  "A list with shortcuts supports a maximum of " +:+ pretty available
  +:+ " choices as this is the maximum number of keyboard shortcuts that are available. Youprovided "
  +:+ pretty given +:+ " choices!".

(** [select], up to the construction of the [InquirerControl]; the rest of
    the function builds the prompt_toolkit application around it.
    [SHORTCUT_KEYS] is [InquirerControl.SHORTCUT_KEYS], a constant of
    [questionary.prompts.common]. *)
Definition select (SHORTCUT_KEYS : list string) (a : select_args)
  : exn + InquirerControl_call :=
  if negb (use_arrow_keys a || use_shortcuts a) then
    inl (ValueError no_movement_message)
  else
    (* the scan of the choices for shortcut keys i and j *)
    let scan : exn + bool :=
      if use_shortcuts a && use_ij_keys a then
        match choices a with
        | None => inl (TypeError "'NoneType' object is not iterable")
        | Some cs => inr (existsb (λ c, in_i_j (getattr_shortcut_key c)) cs)
        end
      else inr false in
    match scan with
    | inl e => inl e
    | inr true => inl (ValueError ij_message)
    | inr false =>
        match choices a with
        | None => inl (ValueError no_choices_message)
        | Some cs =>
            if Nat.eqb (length cs) 0 then
              inl (ValueError no_choices_message)
            else if use_shortcuts a
                    && Nat.ltb (length SHORTCUT_KEYS) (length cs) then
              inl (ValueError
                     (too_many_message (length SHORTCUT_KEYS) (length cs)))
            else
              inr (mkInquirerControl cs (default a) (use_indicator a)
                     (use_shortcuts a) (use_pointer a) (show_selected a)
                     (start a))
        end
    end.

(** ** Reading the log *)

(** The keys whose question was asked and produced a value, in the order
    of the asks. *)
Definition asked_keys (l : list event) : list string :=
  omap (λ ev, match ev with
              | EvAsked k (inr _) => Some k
              | _ => None
              end) l.

(** ** The prompt line and the key bindings of [select] *)

(** The title of a choice: a string, or formatted text, a list of
    (style, text) pairs. *)
Definition choice_title : Type := string + list (string * string).

(** [get_prompt_tokens], the closure of [select]; [is_answered] and
    [pointed_title] are [ic.is_answered] and [ic.get_pointed_at().title],
    and [instruction] is [None] for Python's [None]. *)
Definition get_prompt_tokens (qmark message : string)
    (instruction : option string) (use_shortcuts : bool)
    (is_answered : bool) (pointed_title : choice_title)
  : list (string * string) :=
  let tokens := [("class:qmark", qmark);
                 ("class:question", " " +:+ message +:+ " ")] in
  if is_answered then
    match pointed_title with
    | inr formatted =>
        tokens ++ [("class:answer", String.concat "" (formatted.*2))]
    | inl text => tokens ++ [("class:answer", " " +:+ text)]
    end
  else
    (* [if instruction:] is false for [None] and for the empty string *)
    match instruction with
    | Some (String a rest) =>
        tokens ++ [("class:instruction", String a rest)]
    | Some EmptyString | None =>
        tokens ++ [("class:instruction",
                    if use_shortcuts then " (Use shortcuts)"
                    else " (Use arrow keys)")]
    end.

(** A choice as [InquirerControl] holds it in [ic.choices]: the [Choice]
    and whether it is a [Separator]. *)
Record ControlChoice := mkControlChoice {
  cc_choice : Choice;
  cc_is_separator : bool
}.

(** The keys of the bindings. *)
Inductive keyspec :=
| KControlQ | KControlC | KControlM | KDown | KUp | KAny
| KChar (k : string).

(** The handlers that [select] binds. *)
Inductive handler :=
| Abort                      (* exit with [KeyboardInterrupt] *)
| SelectChoice (i : nat)     (* [ic.pointed_at = i] *)
| MoveCursorDown
| MoveCursorUp
| SetAnswer
| Other.                     (* ignore the key *)

Definition unreachable_message (title : string) : string :=
  title +:+ " does not have a shortcut and arrow keys for movement are disabled. This choice is not reachable.".

(** [for i, c in enumerate(ic.choices)], from index [i] on: the shortcut
    bindings, in the order they are added. *)
Fixpoint shortcut_bindings (use_arrow_keys : bool) (i : nat)
    (cs : list ControlChoice) : exn + list (keyspec * handler) :=
  match cs with
  | [] => inr []
  | c :: rest =>
      match shortcut_key (cc_choice c) with
      | None =>
          if negb use_arrow_keys then
            inl (OtherError "RuntimeError"
                   (unreachable_message (title (cc_choice c))))
          else shortcut_bindings use_arrow_keys (S i) rest
      | Some k =>
          if cc_is_separator c then
            shortcut_bindings use_arrow_keys (S i) rest
          else
            match shortcut_bindings use_arrow_keys (S i) rest with
            | inl e => inl e
            | inr bs => inr ((KChar k, SelectChoice i) :: bs)
            end
      end
  end.

(** The bindings that [select] registers, in the order of the calls of
    [bindings.add] (of two stacked decorators the lower one is applied
    first). *)
Definition select_bindings (use_shortcuts use_arrow_keys use_ij_keys : bool)
    (ic_choices : list ControlChoice) : exn + list (keyspec * handler) :=
  match (if use_shortcuts then shortcut_bindings use_arrow_keys 0 ic_choices
         else inr []) with
  | inl e => inl e
  | inr shortcuts =>
      inr ([(KControlC, Abort); (KControlQ, Abort)]
           ++ shortcuts
           ++ (if use_arrow_keys
               then [(KDown, MoveCursorDown); (KUp, MoveCursorUp)] else [])
           ++ (if use_ij_keys
               then [(KChar "k", MoveCursorDown); (KChar "j", MoveCursorUp)]
               else [])
           ++ [(KControlM, SetAnswer); (KAny, Other)])%list
  end.

(** ** Example forms *)

(** A question on a terminal without state that answers [a]. *)
Definition answering (i : nat) (d a : value) : Question unit :=
  mkQuestion i d (λ _ s, (inr a, s)).

(** A question whose prompt fails with the exception [e]. *)
Definition failing (i : nat) (d : value) (e : exn) : Question unit :=
  mkQuestion i d (λ _ s, (inl e, s)).

Definition is_red (v : value) : bool :=
  match v with VStr c => bool_decide (c = "red") | _ => false end.

Definition color_question (a : string) : Question unit :=
  answering 0 (VStr "red") (VStr a).

Definition shade_question : Question unit :=
  answering 1 (VStr "none") (VStr "dark").

(** The example of the specification: [shade] is skipped when [color] is
    red. *)
Definition color_shade (a : string) : Form unit :=
  skip_if (form [("color", color_question a); ("shade", shade_question)])
          [("shade", reads (inr "color") is_red)].

(** The same form with [shade] registered first. *)
Definition shade_color (a : string) : Form unit :=
  skip_if (form [("shade", shade_question); ("color", color_question a)])
          [("shade", reads (inr "color") is_red)].

(** The two questions without a skip condition. *)
Definition color_and_shade : Form unit :=
  form [("color", color_question "blue"); ("shade", shade_question)].

(** A form whose only question is interrupted by the user. *)
Definition interrupted : Form unit :=
  form [("name", failing 0 VNone KeyboardInterrupt)].

(** A form whose only field waits for a key that no field has. *)
Definition stuck : Form unit :=
  skip_if (form [("name", answering 0 VNone (VStr "Ada"))])
          [("name", reads (inr "title") is_red)].

Definition s0 : Sys unit := mkSys tt [].




(** A form whose only field has a condition that fails with
    [TypeError]. *)
Definition broken : Form unit :=
  skip_if (form [("name", answering 0 VNone (VStr "Ada"))])
          [("name", λ _, inl (TypeError "bad condition"))].

(** Three entries of a menu: two choices with a shortcut around a
    separator. *)
Definition menu : list ControlChoice :=
  [mkControlChoice (mkChoice "Red" (Some "r")) false;
   mkControlChoice (mkChoice "-----" (Some "-")) true;
   mkControlChoice (mkChoice "Blue" (Some "b")) false].

(** A menu with a choice that has no shortcut. *)
Definition menu_without_key : list ControlChoice :=
  [mkControlChoice (mkChoice "Red" (Some "r")) false;
   mkControlChoice (mkChoice "Green" None) false].

(** The run of [shade_color "blue"]. *)
Definition shade_color_run : Run unit :=
  mkRun (inr (<["color" := VStr "red"]>
                (<["shade" := VStr "dark"]> {["color" := VStr "blue"]})))
        s0
        [[EvPending "shade"; EvAsked "color" (inr (VStr "blue"))];
         [EvAsked "shade" (inr (VStr "dark"));
          EvDefaulted "color" (VStr "red")]].

(** * Properties *)

Open Scope nat_scope.

Section FormProperties.

Context {World : Type}.
Implicit Types (self : Form World) (field f : FormField World)
  (fields : list (FormField World)) (answers : gmap string value)
  (s : Sys World) (q : Question World) (c : SkipCondition).

(** ** The values dictionary *)

Lemma by_question_inr fields answers (m : gmap vkey value) (k : string) :
  foldl (λ m f, match answers !! key f with
                | Some v => <[inl (question_id (question f)) := v]> m
                | None => m
                end) m fields !! inr k = m !! inr k.
Proof.
  revert m. induction fields as [|f fields IH]; intros m; simpl; [done|].
  rewrite IH. destruct (answers !! key f); [|done].
  by rewrite lookup_insert_ne.
Qed.

Lemma values_view_key fields answers (k : string) :
  values_view fields answers !! inr k = answers !! k.
Proof.
  unfold values_view. rewrite lookup_union, by_question_inr, lookup_empty.
  rewrite (lookup_kmap (inr : string → vkey)).
  by destruct (answers !! k).
Qed.

Lemma values_view_empty fields : values_view fields ∅ = ∅.
Proof.
  unfold values_view. rewrite kmap_empty, (left_id_L ∅ (∪)).
  induction fields as [|f fields IH]; simpl; [done|].
  by rewrite lookup_empty.
Qed.

Lemma reads_empty (k : vkey) p : reads k p ∅ = inl (KeyError k).
Proof. unfold reads. by rewrite lookup_empty. Qed.

(** ** One visit of a field *)

Ltac unfold_body :=
  unfold field_body, try_except_KeyError, bind, call_skip, call_ask,
    ret, raise, tell; simpl.

(** An answered field is not asked: its default is stored. *)
Lemma field_body_answered self p answers f s v :
  answers !! key f = Some v →
  field_body self p answers f s
  = mkRes (inr (<[key f := question_default (question f)]> answers)) s
          [EvDefaulted (key f) (question_default (question f))].
Proof. intros Hk. unfold_body. by rewrite Hk. Qed.

Lemma field_body_pending self p answers f s c k :
  answers !! key f = None →
  skip_conditions self !! key f = Some c →
  c (values_view (form_fields self) answers) = inl (KeyError k) →
  field_body self p answers f s = mkRes (inr answers) s [EvPending (key f)].
Proof. intros Hk Hc Hv. unfold_body. by rewrite Hk, Hc, Hv. Qed.

Lemma field_body_skipped self p answers f s c :
  answers !! key f = None →
  skip_conditions self !! key f = Some c →
  c (values_view (form_fields self) answers) = inr true →
  field_body self p answers f s
  = mkRes (inr (<[key f := question_default (question f)]> answers)) s
          [EvDefaulted (key f) (question_default (question f))].
Proof. intros Hk Hc Hv. unfold_body. by rewrite Hk, Hc, Hv. Qed.

Lemma field_body_asked self p answers f s v s' :
  answers !! key f = None →
  (skip_conditions self !! key f = None
   ∨ ∃ c : SkipCondition, skip_conditions self !! key f = Some c
          ∧ c (values_view (form_fields self) answers) = inr false) →
  question_unsafe_ask (question f) p s = (inr v, s') →
  field_body self p answers f s
  = mkRes (inr (<[key f := v]> answers)) s' [EvAsked (key f) (inr v)].
Proof.
  intros Hk [Hc|(c & Hc & Hv)] Hq; unfold_body; rewrite Hk, Hc; simpl;
    [|rewrite Hv; simpl]; by rewrite Hq.
Qed.

(** The body, with the monad unfolded. *)
Lemma field_body_unfold self p answers f s :
  field_body self p answers f s
  = let k := key f in
    let d := question_default (question f) in
    match answers !! k with
    | Some _ => mkRes (inr (<[k := d]> answers)) s [EvDefaulted k d]
    | None =>
        match match skip_conditions self !! k with
              | Some c => c (values_view (form_fields self) answers)
              | None => inr false
              end with
        | inl e => if is_KeyError e
                   then mkRes (inr answers) s [EvPending k]
                   else mkRes (inl e) s []
        | inr true => mkRes (inr (<[k := d]> answers)) s [EvDefaulted k d]
        | inr false =>
            let '(r, s') := question_unsafe_ask (question f) p s in
            match r with
            | inr v => mkRes (inr (<[k := v]> answers)) s' [EvAsked k r]
            | inl e => if is_KeyError e
                       then mkRes (inr answers) s' [EvAsked k r]
                       else mkRes (inl e) s' [EvAsked k r]
            end
        end
    end.
Proof.
  unfold_body.
  destruct (answers !! key f); [done|].
  destruct (skip_conditions self !! key f) as [c|]; simpl.
  - destruct (c (values_view (form_fields self) answers)) as [e|[|]];
      simpl; [by destruct e|done|].
    by destruct (question_unsafe_ask (question f) p s) as [[[]|v] s'].
  - by destruct (question_unsafe_ask (question f) p s) as [[[]|v] s'].
Qed.

(** Every visit has one of six shapes. *)
Lemma field_body_cases self p answers f s :
  let r := field_body self p answers f s in
  let k := key f in
  let d := question_default (question f) in
  (answers !! k = None ∧ r = mkRes (inr answers) s [EvPending k])
  ∨ r = mkRes (inr (<[k := d]> answers)) s [EvDefaulted k d]
  ∨ (∃ e, is_KeyError e = false ∧ r = mkRes (inl e) s [])
  ∨ (∃ v s', answers !! k = None
       ∧ question_unsafe_ask (question f) p s = (inr v, s')
       ∧ r = mkRes (inr (<[k := v]> answers)) s' [EvAsked k (inr v)])
  ∨ (∃ k' s', answers !! k = None
       ∧ question_unsafe_ask (question f) p s = (inl (KeyError k'), s')
       ∧ r = mkRes (inr answers) s' [EvAsked k (inl (KeyError k'))])
  ∨ (∃ e s', is_KeyError e = false
       ∧ question_unsafe_ask (question f) p s = (inl e, s')
       ∧ r = mkRes (inl e) s' [EvAsked k (inl e)]).
Proof.
  simpl. rewrite field_body_unfold. simpl.
  destruct (answers !! key f) as [v|]; [by auto|].
  destruct (match skip_conditions self !! key f with
            | Some c => c (values_view (form_fields self) answers)
            | None => inr false
            end) as [e|[|]].
  - destruct e; simpl; [by left|..];
      right; right; left; eexists; (split; [|reflexivity]); reflexivity.
  - auto.
  - destruct (question_unsafe_ask (question f) p s) as [[e|v] s'].
    + destruct e; simpl; [do 4 right; left; by do 2 eexists|..];
        do 5 right; do 2 eexists; (split; [|split; reflexivity]);
        reflexivity.
    + do 3 right; left. by do 2 eexists.
Qed.

Ltac visit_cases self p answers f s :=
  destruct (field_body_cases self p answers f s)
    as [[? Hvisit]|[Hvisit|[(? & ? & Hvisit)|[(? & ? & ? & ? & Hvisit)|
        [(? & ? & ? & ? & Hvisit)|(? & ? & ? & ? & Hvisit)]]]]];
  rewrite Hvisit; clear Hvisit; simpl.

(** The keys of [answers] after a visit: those before, and possibly the
    key of the field. *)
Lemma field_body_dom self p answers f s answers' :
  outcome (field_body self p answers f s) = inr answers' →
  dom answers ⊆ dom answers' ∧ dom answers' ⊆ dom answers ∪ {[key f]}.
Proof.
  visit_cases self p answers f s; intros ?; simplify_eq;
    rewrite ?dom_insert_L; set_solver.
Qed.

(** ** One pass *)

Lemma for_fields_cons self p f fields answers s :
  for_fields self p (f :: fields) answers s
  = let r := field_body self p answers f s in
    match outcome r with
    | inl e => mkRes (inl e) (sys r) (log r)
    | inr answers' =>
        let r' := for_fields self p fields answers' (sys r) in
        mkRes (outcome r') (sys r') (log r ++ log r')
    end.
Proof. reflexivity. Qed.

Lemma for_fields_dom self p fields answers s answers' :
  outcome (for_fields self p fields answers s) = inr answers' →
  dom answers ⊆ dom answers'
  ∧ dom answers' ⊆ dom answers ∪ list_to_set (key <$> fields).
Proof.
  revert answers s. induction fields as [|f fields IH]; intros answers s.
  - simpl. intros ?; simplify_eq. set_solver.
  - rewrite for_fields_cons. simpl.
    destruct (outcome (field_body self p answers f s)) as [e|a1] eqn:H1;
      simpl; [done|].
    intros H2. apply field_body_dom in H1. apply IH in H2.
    set_solver.
Qed.

(** ** The loop returns *)

Lemma all_answered_spec self answers :
  all_answered self answers = true ↔ field_keys self ⊆ dom answers.
Proof.
  unfold all_answered, field_keys. rewrite forallb_forall.
  setoid_rewrite bool_decide_eq_true. setoid_rewrite <- elem_of_dom.
  setoid_rewrite <- list_elem_of_In. split.
  - intros H k. rewrite elem_of_list_to_set, list_elem_of_fmap.
    intros (f & -> & Hf). auto.
  - intros H f Hf. apply H. rewrite elem_of_list_to_set, list_elem_of_fmap.
    eauto.
Qed.

Lemma size_field_keys self : size (field_keys self) ≤ length (form_fields self).
Proof.
  unfold field_keys. induction (form_fields self) as [|f l IH].
  - by rewrite fmap_nil, list_to_set_nil, size_empty.
  - rewrite fmap_cons, list_to_set_cons, size_union_alt, size_singleton.
    cbn [length].
    assert (size (list_to_set (key <$> l) ∖ {[key f]} : gset string)
            ≤ size (list_to_set (key <$> l) : gset string))
      by (apply subseteq_size; set_solver).
    lia.
Qed.

Lemma while_loop_unfold fuel self p prev answers s :
  while_loop fuel self p prev answers s
  = if all_answered self answers then Some (mkRun (inr answers) s [])
    else
      match fuel with
      | O => None
      | S fuel' =>
          let r := for_fields self p (form_fields self) answers s in
          match outcome r with
          | inl e => Some (mkRun (inl e) (sys r) [log r])
          | inr answers' =>
              if Nat.eqb prev (size answers')
              then Some (mkRun (inl (DependencyError dependency_message))
                               (sys r) [log r])
              else add_pass (log r)
                     <$> while_loop fuel' self p (size answers') answers'
                                    (sys r)
          end
      end.
Proof. by destruct fuel. Qed.

(** A pass that adds no key leaves the same keys; one that adds a key
    leaves more of them. *)
Lemma pass_progress self p answers s answers' :
  outcome (for_fields self p (form_fields self) answers s) = inr answers' →
  dom answers ⊆ field_keys self →
  dom answers ⊆ dom answers' ∧ dom answers' ⊆ field_keys self
  ∧ size answers ≤ size answers'
  ∧ (size answers = size answers' ↔ dom answers' = dom answers).
Proof.
  intros H Hb. apply for_fields_dom in H as [H1 H2].
  fold (field_keys self) in H2.
  assert (size (dom answers) ≤ size (dom answers')) as Hle
    by by apply subseteq_size.
  rewrite !size_dom in Hle.
  repeat split; [done|set_solver|done|..].
  - intros Hs. symmetry. apply set_subseteq_size_eq; [done|].
    rewrite !size_dom. lia.
  - intros Hd. by rewrite <- !(size_dom (D := gset string)), Hd.
Qed.

(** With the progress marker at the number of answers, the loop needs no
    more passes than there are keys still to answer. *)
Lemma while_loop_returns fuel self p answers s :
  dom answers ⊆ field_keys self →
  size (field_keys self) ≤ fuel + size answers →
  is_Some (while_loop fuel self p (size answers) answers s).
Proof.
  revert answers s. induction fuel as [|fuel IH]; intros answers s Hb Hf;
    rewrite while_loop_unfold;
    destruct (all_answered self answers) eqn:Hall; try done.
  - exfalso. apply not_true_iff_false in Hall. apply Hall.
    apply all_answered_spec.
    assert (dom answers = field_keys self) as <-; [|done].
    apply set_subseteq_size_eq; [done|]. rewrite size_dom. lia.
  - simpl.
    destruct (outcome (for_fields self p (form_fields self) answers s))
      as [e|answers'] eqn:Hpass; [done|].
    destruct (Nat.eqb_spec (size answers) (size answers')) as [|Hne];
      [done|].
    destruct (pass_progress _ _ _ _ _ Hpass Hb) as (H1 & H2 & H3 & H4).
    destruct (IH answers'
                (sys (for_fields self p (form_fields self) answers s)))
      as [r Hr]; [done|lia|].
    rewrite Hr. done.
Qed.

(** [Form.unsafe_ask] always returns or raises: a pass for every field is
    enough. *)
Lemma unsafe_ask_returns self p s : is_Some (unsafe_ask self p s).
Proof.
  unfold unsafe_ask.
  change 0 with (size (∅ : gmap string value)) at 1.
  apply while_loop_returns.
  - rewrite dom_empty_L. set_solver.
  - rewrite map_size_empty. pose proof (size_field_keys self). lia.
Qed.

(** More fuel changes nothing. *)
Lemma while_loop_fuel_mono fuel fuel' self p prev answers s r :
  while_loop fuel self p prev answers s = Some r →
  fuel ≤ fuel' →
  while_loop fuel' self p prev answers s = Some r.
Proof.
  revert fuel' prev answers s r.
  induction fuel as [|fuel IH]; intros fuel' prev answers s r;
    rewrite !while_loop_unfold;
    destruct (all_answered self answers); try done.
  intros H Hle. destruct fuel' as [|fuel']; [lia|]. simpl in *.
  destruct (outcome (for_fields self p (form_fields self) answers s))
    as [e|answers']; [done|].
  destruct (Nat.eqb prev (size answers')); [done|].
  destruct (while_loop fuel self p (size answers') answers' _) as [r'|]
    eqn:Hr; [|done].
  rewrite (IH fuel' _ _ _ _ Hr); [done|lia].
Qed.

(** The bound on the passes in [unsafe_ask] is no restriction: with any
    larger bound the loop does the same. *)
Lemma unsafe_ask_fuel fuel self p s :
  length (form_fields self) ≤ fuel →
  while_loop fuel self p 0 ∅ s = unsafe_ask self p s.
Proof.
  intros Hle. destruct (unsafe_ask_returns self p s) as [r Hr].
  rewrite Hr. by eapply while_loop_fuel_mono.
Qed.

(** ** A form without fields *)

(** C9. For the form with zero fields, whatever skip conditions are
    registered, [unsafe_ask] returns the empty mapping at once: no pass is
    executed (the log of passes is empty), no question is asked (the state
    outside is the one it started in) and nothing is raised. *)
Theorem unsafe_ask_no_fields (conds : gmap string SkipCondition) p s :
  unsafe_ask (mkForm [] conds) p s = Some (mkRun (inr ∅) s []).
Proof. reflexivity. Qed.

(** ** Stalled passes and [DependencyError] *)







(** A condition that reads a key is pending as long as nothing is
    answered. *)
Lemma field_body_reads_nothing self p f s (k : vkey) pr :
  skip_conditions self !! key f = Some (reads k pr) →
  field_body self p ∅ f s = mkRes (inr ∅) s [EvPending (key f)].
Proof.
  intros Hc. eapply field_body_pending; [apply lookup_empty|done|].
  by rewrite values_view_empty, reads_empty.
Qed.





(** ** Exceptions of the questions *)

(** What a question raises, [KeyError] apart, ends the pass with that
    exception. *)
Lemma for_fields_ask_raised self p fields answers s k e :
  EvAsked k (inl e) ∈ log (for_fields self p fields answers s) →
  is_KeyError e = false →
  outcome (for_fields self p fields answers s) = inl e.
Proof.
  intros Hin He. revert answers s Hin.
  induction fields as [|f fields IH]; intros answers s.
  - simpl. by intros ?%elem_of_nil.
  - rewrite for_fields_cons.
    visit_cases self p answers f s;
      rewrite ?elem_of_cons, ?elem_of_nil;
      try (intros [?|?]; [simplify_eq|by apply IH]);
      try done; try naive_solver.
Qed.

Lemma while_loop_ask_raised fuel self p prev answers s r k e :
  while_loop fuel self p prev answers s = Some r →
  EvAsked k (inl e) ∈ concat (passes r) →
  is_KeyError e = false →
  result r = inl e.
Proof.
  intros Hr Hin He. revert prev answers s r Hr Hin.
  induction fuel as [|fuel IH]; intros prev answers s r;
    rewrite while_loop_unfold;
    destruct (all_answered self answers);
    try (intros ?; simplify_eq; simpl; by intros ?%elem_of_nil);
    try done.
  simpl.
  pose proof (for_fields_ask_raised self p (form_fields self) answers s k e)
    as Hpass.
  destruct (outcome (for_fields self p (form_fields self) answers s))
    as [e'|answers'].
  - intros ?; simplify_eq. simpl. rewrite app_nil_r. intros Hin.
    by rewrite <- Hpass.
  - destruct (Nat.eqb prev (size answers')).
    + intros ?; simplify_eq. simpl. rewrite app_nil_r. intros Hin.
      by specialize (Hpass Hin He).
    + destruct (while_loop fuel self p (size answers') answers' _)
        as [r'|] eqn:Hr'; [|done].
      simpl. intros ?; simplify_eq. simpl. rewrite elem_of_app.
      intros [Hin|Hin]; [by specialize (Hpass Hin He)|].
      by eapply IH.
Qed.

(** C7. If a question is interrupted ([KeyboardInterrupt] raised when it
    is asked), [unsafe_ask] raises that exception; whenever [unsafe_ask]
    raises [KeyboardInterrupt], [ask] prints an empty line, the message and
    an empty line and returns the empty mapping; every other exception of
    [unsafe_ask], [DependencyError] among them, is raised by [ask] too, and
    a mapping returned is returned. *)
Theorem ask_catches_interruption_only self p kbi_msg s r :
  unsafe_ask self p s = Some r →
  ((∃ k, EvAsked k (inl KeyboardInterrupt) ∈ concat (passes r)) →
     result r = inl KeyboardInterrupt)
  ∧ (result r = inl KeyboardInterrupt →
     ask self p kbi_msg s
     = Some (mkRun (inr ∅)
               (mkSys (world (final r))
                      (stdout (final r) ++ [""; kbi_msg; ""]%string))
               (passes r)))
  ∧ (result r ≠ inl KeyboardInterrupt → ask self p kbi_msg s = Some r)
  ∧ (∀ msg, result r = inl (DependencyError msg) →
       ask self p kbi_msg s = Some r).
Proof.
  intros Hr. unfold ask. rewrite Hr.
  split; [|split; [|split]].
  - intros [k Hk]. by eapply while_loop_ask_raised.
  - intros ->. unfold print. simpl. by rewrite <- !app_assoc.
  - intros Hne. by destruct (result r) as [[]|].
  - by intros msg ->.
Qed.

(** ** Repeated calls *)

Lemma field_body_deterministic self p answers f s1 s2 :
  deterministic (question f) →
  outcome (field_body self p answers f s1)
  = outcome (field_body self p answers f s2)
  ∧ log (field_body self p answers f s1)
    = log (field_body self p answers f s2).
Proof.
  intros Hq. specialize (Hq p s1 s2). rewrite !field_body_unfold. simpl.
  destruct (answers !! key f); [done|].
  destruct (match skip_conditions self !! key f with
            | Some c => c (values_view (form_fields self) answers)
            | None => inr false
            end) as [e|[|]]; [by destruct (is_KeyError e)|done|].
  destruct (question_unsafe_ask (question f) p s1) as [r1 s1'].
  destruct (question_unsafe_ask (question f) p s2) as [r2 s2'].
  simpl in Hq. subst r2.
  destruct r1 as [e|v]; [by destruct (is_KeyError e)|done].
Qed.

Lemma for_fields_deterministic self p fields answers s1 s2 :
  Forall (λ f, deterministic (question f)) fields →
  outcome (for_fields self p fields answers s1)
  = outcome (for_fields self p fields answers s2)
  ∧ log (for_fields self p fields answers s1)
    = log (for_fields self p fields answers s2).
Proof.
  intros Hdet. revert answers s1 s2.
  induction Hdet as [|f fields Hf _ IH]; intros answers s1 s2; [done|].
  rewrite !for_fields_cons. simpl.
  destruct (field_body_deterministic self p answers f s1 s2 Hf)
    as [<- <-].
  destruct (outcome (field_body self p answers f s1)) as [e|answers'];
    [done|].
  simpl.
  by destruct (IH answers' (sys (field_body self p answers f s1))
                 (sys (field_body self p answers f s2))) as [<- <-].
Qed.

Lemma while_loop_deterministic fuel self p prev answers s1 s2 :
  Forall (λ f, deterministic (question f)) (form_fields self) →
  (λ r, (result r, passes r)) <$> while_loop fuel self p prev answers s1
  = (λ r, (result r, passes r)) <$> while_loop fuel self p prev answers s2.
Proof.
  intros Hdet. revert prev answers s1 s2.
  induction fuel as [|fuel IH]; intros prev answers s1 s2;
    rewrite !while_loop_unfold;
    destruct (all_answered self answers); try done.
  simpl.
  destruct (for_fields_deterministic self p (form_fields self) answers
              s1 s2 Hdet) as [<- <-].
  destruct (outcome (for_fields self p (form_fields self) answers s1))
    as [e|answers']; [done|].
  destruct (Nat.eqb prev (size answers')); [done|].
  specialize (IH (size answers') answers'
                (sys (for_fields self p (form_fields self) answers s1))
                (sys (for_fields self p (form_fields self) answers s2))).
  destruct (while_loop fuel self p (size answers') answers'
              (sys (for_fields self p (form_fields self) answers s1)));
    destruct (while_loop fuel self p (size answers') answers'
                (sys (for_fields self p (form_fields self) answers s2)));
    simpl in *; try done.
  injection IH as -> ->. done.
Qed.

(** C8. When the questions of a form are deterministic, a call of
    [unsafe_ask] and a second call on the same form, in the state the first
    one left, both return or raise, and with the same result and the same
    visits.  Every call starts from the empty answers; the form is an
    argument that the function only reads. *)
Theorem unsafe_ask_repeatable self p s :
  Forall (λ f, deterministic (question f)) (form_fields self) →
  ∃ r1 r2,
    unsafe_ask self p s = Some r1
    ∧ unsafe_ask self p (final r1) = Some r2
    ∧ result r1 = result r2
    ∧ passes r1 = passes r2.
Proof.
  intros Hdet.
  destruct (unsafe_ask_returns self p s) as [r1 H1].
  destruct (unsafe_ask_returns self p (final r1)) as [r2 H2].
  exists r1, r2. split; [done|]. split; [done|].
  pose proof (while_loop_deterministic (length (form_fields self)) self p 0
                ∅ s (final r1) Hdet) as Heq.
  unfold unsafe_ask in H1, H2. rewrite H1, H2 in Heq. simpl in Heq.
  by simplify_eq.
Qed.

(** ** Forms without skip conditions *)

Lemma ask_in_order_length p fields s vs s' :
  ask_in_order p fields s = Some (vs, s') → length vs = length fields.
Proof.
  revert s vs. induction fields as [|f fields IH]; intros s vs; simpl.
  - by intros [= <- _].
  - destruct (question_unsafe_ask (question f) p s) as [[e|v] s1]; [done|].
    destruct (ask_in_order p fields s1) as [[vs1 s2]|] eqn:H1; [|done].
    intros [= <- <-]. simpl. f_equal. by eapply IH.
Qed.

Lemma lookup_zipped_keys (ks : list string) (vs : list value) (k : string) :
  k ∉ ks → (list_to_map (zip ks vs) : gmap string value) !! k = None.
Proof.
  intros Hk. apply not_elem_of_list_to_map_1.
  rewrite list_elem_of_fmap. intros ([k' v] & -> & Hin).
  by apply elem_of_zip_l in Hin.
Qed.

Lemma for_fields_no_conditions self p fields answers s vs s' :
  skip_conditions self = ∅ →
  NoDup (key <$> fields) →
  (∀ f, f ∈ fields → answers !! key f = None) →
  ask_in_order p fields s = Some (vs, s') →
  for_fields self p fields answers s
  = mkRes (inr (list_to_map (zip (key <$> fields) vs) ∪ answers)) s'
          (zip_with (λ f v, EvAsked (key f) (inr v)) fields vs).
Proof.
  intros Hc. revert answers s vs.
  induction fields as [|f fields IH]; intros answers s vs Hnd Hun Hask.
  - injection Hask as <- <-. simpl. unfold ret.
    by rewrite (left_id_L ∅ (∪)).
  - rewrite fmap_cons in Hnd. apply NoDup_cons in Hnd as [Hf Hnd].
    cbn [ask_in_order] in Hask.
    destruct (question_unsafe_ask (question f) p s) as [[e|v] s1] eqn:Hq;
      [done|].
    destruct (ask_in_order p fields s1) as [[vs1 s2]|] eqn:H1; [|done].
    injection Hask as <- <-.
    rewrite for_fields_cons.
    rewrite (field_body_asked self p answers f s v s1);
      [|apply Hun; left|left; by rewrite Hc, lookup_empty|done].
    cbv beta zeta; cbn [outcome sys log].
    rewrite (IH (<[key f := v]> answers) s1 vs1); [|done| |done].
    + rewrite fmap_cons. cbn [zip_with list_to_map foldr outcome sys log].
      simpl. do 2 f_equal.
      rewrite <- insert_union_l. symmetry. apply insert_union_r.
      by apply lookup_zipped_keys.
    + intros g Hg. rewrite lookup_insert_ne; [apply Hun; by right|].
      intros Heq. apply Hf. rewrite Heq. by apply list_elem_of_fmap_2.
Qed.

(** C5. For a form with no skip condition and distinct keys whose
    questions, asked once each in registration order, produce the values
    [vs]: [unsafe_ask] makes exactly those calls, in that order, in a
    single pass (none if the form has no field), and returns a mapping
    whose keys are the field keys, one entry for every field, each holding
    the value its question produced. *)
Theorem no_conditions_one_pass self p s vs s' :
  skip_conditions self = ∅ →
  NoDup (key <$> form_fields self) →
  ask_in_order p (form_fields self) s = Some (vs, s') →
  ∃ answers,
    unsafe_ask self p s
    = Some (mkRun (inr answers) s'
              match form_fields self with
              | [] => []
              | _ => [zip_with (λ f v, EvAsked (key f) (inr v))
                               (form_fields self) vs]
              end)
    ∧ length vs = length (form_fields self)
    ∧ dom answers = field_keys self
    ∧ size answers = length (form_fields self)
    ∧ ∀ i f v, form_fields self !! i = Some f → vs !! i = Some v →
               answers !! key f = Some v.
Proof.
  intros Hc Hnd Hask.
  pose proof (ask_in_order_length _ _ _ _ _ Hask) as Hlen.
  exists (list_to_map (zip (key <$> form_fields self) vs)).
  assert ((zip (key <$> form_fields self) vs).*1 = key <$> form_fields self)
    as Hfst by (apply fst_zip; rewrite length_fmap; lia).
  assert (dom (list_to_map (zip (key <$> form_fields self) vs)
                 : gmap string value) = field_keys self) as Hdom
    by (by rewrite dom_list_to_map_L, Hfst).
  split; [|split; [done|split; [done|split]]].
  - unfold unsafe_ask. rewrite while_loop_unfold.
    destruct (all_answered self ∅) eqn:Hall.
    { apply all_answered_spec in Hall. rewrite dom_empty_L in Hall.
      unfold field_keys in Hall.
      destruct (form_fields self) as [|f fields]; [|set_solver].
      by injection Hask as <- <-. }
    assert (∃ f fields, form_fields self = f :: fields)
      as (f & fields & Hfields).
    { destruct (form_fields self) as [|f fields] eqn:Hfields; [|by eauto].
      unfold all_answered in Hall. by rewrite Hfields in Hall. }
    assert (length (form_fields self) = S (length fields)) as Hlen1
      by by rewrite Hfields.
    set (visits := zip_with (λ f v, EvAsked (key f) (inr v)) _ _).
    assert (match form_fields self with [] => [] | _ => [visits] end
            = [visits]) as -> by by rewrite Hfields.
    rewrite Hlen1. cbv zeta.
    rewrite (for_fields_no_conditions self p (form_fields self) ∅ s vs s');
      [|done|done|intros; apply lookup_empty|done].
    cbn [outcome sys log]. fold visits.
    rewrite (right_id_L ∅ (∪)).
    replace (size (list_to_map (zip (key <$> form_fields self) vs)
                     : gmap string value))
      with (S (length fields)).
    2:{ rewrite <- size_dom, Hdom. unfold field_keys.
        by rewrite size_list_to_set, length_fmap. }
    cbn [Nat.eqb].
    rewrite while_loop_unfold.
    replace (all_answered self _) with true; [done|].
    symmetry. apply all_answered_spec. by rewrite Hdom.
  - rewrite <- size_dom, Hdom. unfold field_keys.
    by rewrite size_list_to_set, length_fmap.
  - intros i f v Hf Hv. apply elem_of_list_to_map_1; [by rewrite Hfst|].
    apply list_elem_of_lookup. exists i.
    rewrite lookup_zip_with, list_lookup_fmap, Hf, Hv. done.
Qed.

(** ** Skipped fields *)

(** A visit keeps a default that is stored, when the fields of that key
    all have that default. *)
Lemma field_body_keeps_default self p answers f s answers' (k : string) d :
  (key f = k → question_default (question f) = d) →
  outcome (field_body self p answers f s) = inr answers' →
  answers !! k = Some d ∨ EvDefaulted k d ∈ log (field_body self p answers f s) →
  answers' !! k = Some d.
Proof.
  intros Hd.
  visit_cases self p answers f s; intros ?; simplify_eq;
    rewrite ?elem_of_cons, ?elem_of_nil; intros [Hk|Hk]; try done;
    try naive_solver.
  - destruct (decide (key f = k)) as [Heq|Hne].
    + rewrite Heq, (Hd Heq). apply lookup_insert_eq.
    + by rewrite lookup_insert_ne.
  - destruct Hk as [[= <- <-]|[]]. apply lookup_insert_eq.
  - rewrite lookup_insert_ne; [done|]. intros Heq. congruence.
Qed.

Lemma for_fields_keeps_default self p fields answers s answers'
    (k : string) d :
  (∀ f, f ∈ fields → key f = k → question_default (question f) = d) →
  outcome (for_fields self p fields answers s) = inr answers' →
  answers !! k = Some d
  ∨ EvDefaulted k d ∈ log (for_fields self p fields answers s) →
  answers' !! k = Some d.
Proof.
  revert answers s. induction fields as [|f fields IH]; intros answers s Hd.
  - simpl. intros [= <-] [?|?%elem_of_nil]; done.
  - rewrite for_fields_cons. cbv zeta.
    pose proof (field_body_keeps_default self p answers f s) as Hf.
    destruct (outcome (field_body self p answers f s)) as [e|a1];
      cbn [outcome log]; [done|].
    intros Hout Hk.
    eapply IH; [intros; apply Hd; [by right|done]|done|].
    rewrite elem_of_app in Hk. destruct Hk as [Hk|[Hk|Hk]]; [left|left|by right];
      (eapply Hf; [apply Hd; by left|done|]); auto.
Qed.

Lemma while_loop_keeps_default fuel self p prev answers s r answers'
    (k : string) d :
  (∀ f, f ∈ form_fields self → key f = k →
        question_default (question f) = d) →
  while_loop fuel self p prev answers s = Some r →
  result r = inr answers' →
  answers !! k = Some d ∨ EvDefaulted k d ∈ concat (passes r) →
  answers' !! k = Some d.
Proof.
  intros Hd. revert prev answers s r.
  induction fuel as [|fuel IH]; intros prev answers s r;
    rewrite while_loop_unfold;
    destruct (all_answered self answers);
    try (intros [= <-]; simpl; intros [= <-] [?|?%elem_of_nil]; done);
    try done.
  cbv zeta.
  pose proof (for_fields_keeps_default self p (form_fields self) answers s)
    as Hpass.
  destruct (outcome (for_fields self p (form_fields self) answers s))
    as [e|a1]; [by intros [= <-]|].
  destruct (Nat.eqb prev (size a1)); [by intros [= <-]|].
  destruct (while_loop fuel self p (size a1) a1 _) as [r'|] eqn:Hr';
    [|done].
  simpl. intros [= <-]. simpl. intros Hres Hk.
  eapply IH; [done|done|].
  rewrite elem_of_app in Hk. destruct Hk as [Hk|[Hk|Hk]]; [left|left|by right];
    eapply Hpass; eauto.
Qed.

(** C6. When the skip condition of an unanswered field evaluates to true
    on the values dictionary, the visit does not invoke the question (the
    state outside is untouched and the only event is the storing of the
    default) and the answer recorded for the key is the question's default.
    In a form with distinct keys, a default stored for a field is also what
    the mapping returned holds for its key. *)
Theorem skipped_field_gets_default self p f :
  (∀ answers s c,
     answers !! key f = None →
     skip_conditions self !! key f = Some c →
     c (values_view (form_fields self) answers) = inr true →
     field_body self p answers f s
     = mkRes (inr (<[key f := question_default (question f)]> answers)) s
             [EvDefaulted (key f) (question_default (question f))])
  ∧ (NoDup (key <$> form_fields self) →
     f ∈ form_fields self →
     ∀ s r answers',
       unsafe_ask self p s = Some r →
       result r = inr answers' →
       EvDefaulted (key f) (question_default (question f))
         ∈ concat (passes r) →
       answers' !! key f = Some (question_default (question f))).
Proof.
  split.
  - intros answers s c. apply field_body_skipped.
  - intros Hnd Hf s r answers' Hr Hres Hev.
    eapply while_loop_keeps_default; [|exact Hr|done|by right].
    intros g Hg Heq. f_equal. f_equal.
    apply list_elem_of_lookup in Hf as [i Hi].
    apply list_elem_of_lookup in Hg as [j Hj].
    assert (i = j) as ->; [|congruence].
    eapply NoDup_lookup; [exact Hnd| |];
      rewrite list_lookup_fmap; [by rewrite Hi|rewrite Hj; simpl].
    by rewrite Heq.
Qed.

(** ** A condition on another field's answer *)

Lemma values_view_question fields answers (i : nat) :
  values_view fields answers !! inl i
  = foldl (λ m f, match answers !! key f with
                  | Some v => <[inl (question_id (question f)) := v]> m
                  | None => m
                  end) (∅ : gmap vkey value) fields !! inl i.
Proof.
  unfold values_view. rewrite lookup_union.
  replace (kmap (inr : string → vkey) answers !! inl i) with (@None value).
  - by rewrite (left_id_L None (∪)).
  - symmetry. apply (lookup_kmap_None (inr : string → vkey)). by intros.
Qed.

(** Once [ka] alone is answered, its answer is found under the key and
    under the question, whichever way round the two fields are
    registered. *)
Lemma values_view_alias (qa qb : Question World) (ka kb : string)
    (alias : vkey) va :
  ka ≠ kb →
  alias = inr ka ∨ alias = inl (question_id qa) →
  values_view [mkFormField ka qa; mkFormField kb qb] {[ka := va]} !! alias
  = Some va
  ∧ values_view [mkFormField kb qb; mkFormField ka qa] {[ka := va]} !! alias
    = Some va.
Proof.
  intros Hne [->| ->].
  - by rewrite !values_view_key, lookup_singleton_eq.
  - rewrite !values_view_question. simpl.
    rewrite lookup_singleton_eq, lookup_singleton_ne by done.
    by rewrite lookup_insert_eq.
Qed.

(** The visit of a field whose condition reads an answer that is there. *)
Lemma field_body_reads self p answers f s (alias : vkey) pr va vb s2 :
  answers !! key f = None →
  skip_conditions self !! key f = Some (reads alias pr) →
  values_view (form_fields self) answers !! alias = Some va →
  (pr va = false → question_unsafe_ask (question f) p s = (inr vb, s2)) →
  field_body self p answers f s
  = mkRes
      (inr (<[key f := if pr va then question_default (question f) else vb]>
              answers))
      (if pr va then s else s2)
      [if pr va then EvDefaulted (key f) (question_default (question f))
       else EvAsked (key f) (inr vb)].
Proof.
  intros Hk Hc Hv Hq. destruct (pr va) eqn:Hpr.
  - eapply field_body_skipped; [done|done|].
    unfold reads. by rewrite Hv, Hpr.
  - apply field_body_asked; [done| |by apply Hq].
    right. eexists. split; [done|]. unfold reads. by rewrite Hv, Hpr.
Qed.

Lemma unsafe_ask_a_before_b (qa qb : Question World) (ka kb : string)
    (alias : vkey) (pr : value → bool) p s va s1 vb s2 :
  ka ≠ kb →
  alias = inr ka ∨ alias = inl (question_id qa) →
  question_unsafe_ask qa p s = (inr va, s1) →
  (pr va = false → question_unsafe_ask qb p s1 = (inr vb, s2)) →
  unsafe_ask (skip_if (Form_init [mkFormField ka qa; mkFormField kb qb])
                      [(kb, reads alias pr)]) p s
  = Some (mkRun
            (inr (<[kb := if pr va then question_default qb else vb]>
                    {[ka := va]}))
            (if pr va then s1 else s2)
            [[EvAsked ka (inr va);
              if pr va then EvDefaulted kb (question_default qb)
              else EvAsked kb (inr vb)]]).
Proof.
  intros Hne Halias Ha Hb.
  set (A := mkFormField ka qa). set (B := mkFormField kb qb).
  set (self := skip_if _ _).
  assert (skip_conditions self !! ka = None) as Hca
    by (subst self; unfold skip_if; simpl; by rewrite lookup_insert_ne).
  assert (skip_conditions self !! kb = Some (reads alias pr)) as Hcb
    by (subst self; unfold skip_if; simpl; by rewrite lookup_insert_eq).
  destruct (values_view_alias qa qb ka kb alias va Hne Halias) as [Hv _].
  unfold unsafe_ask. change (form_fields self) with [A; B].
  cbn [length]. rewrite while_loop_unfold.
  unfold all_answered at 1. change (form_fields self) with [A; B].
  cbn [forallb key A]. rewrite lookup_empty.
  rewrite bool_decide_eq_false_2 by (by intros [? ?]). cbn [andb].
  cbv zeta. rewrite for_fields_cons.
  rewrite (field_body_asked self p ∅ A s va s1);
    [|apply lookup_empty|by left|done].
  cbv beta zeta; cbn [outcome sys log]. rewrite for_fields_cons.
  rewrite (insert_empty (M := gmap string)).
  rewrite (field_body_reads self p {[ka := va]} B s1 alias pr va vb s2);
    [|by apply lookup_singleton_ne|done|done|done].
  cbv beta zeta; cbn [outcome sys log for_fields ret app key A B question].
  rewrite map_size_insert_None by (by apply lookup_singleton_ne).
  rewrite map_size_singleton. cbn [Nat.eqb].
  rewrite while_loop_unfold.
  unfold all_answered. change (form_fields self) with [A; B].
  cbn [forallb key A B].
  rewrite lookup_insert_ne, lookup_singleton_eq, lookup_insert_eq by done.
  rewrite !bool_decide_eq_true_2 by done. done.
Qed.

Lemma unsafe_ask_b_before_a (qa qb : Question World) (ka kb : string)
    (alias : vkey) (pr : value → bool) p s va s1 vb s2 :
  ka ≠ kb →
  alias = inr ka ∨ alias = inl (question_id qa) →
  question_unsafe_ask qa p s = (inr va, s1) →
  (pr va = false → question_unsafe_ask qb p s1 = (inr vb, s2)) →
  unsafe_ask (skip_if (Form_init [mkFormField kb qb; mkFormField ka qa])
                      [(kb, reads alias pr)]) p s
  = Some (mkRun
            (inr (<[ka := question_default qa]>
                    (<[kb := if pr va then question_default qb else vb]>
                       {[ka := va]})))
            (if pr va then s1 else s2)
            [[EvPending kb; EvAsked ka (inr va)];
             [if pr va then EvDefaulted kb (question_default qb)
              else EvAsked kb (inr vb);
              EvDefaulted ka (question_default qa)]]).
Proof.
  intros Hne Halias Ha Hb.
  set (A := mkFormField ka qa). set (B := mkFormField kb qb).
  set (self := skip_if _ _).
  assert (skip_conditions self !! ka = None) as Hca
    by (subst self; unfold skip_if; simpl; by rewrite lookup_insert_ne).
  assert (skip_conditions self !! kb = Some (reads alias pr)) as Hcb
    by (subst self; unfold skip_if; simpl; by rewrite lookup_insert_eq).
  destruct (values_view_alias qa qb ka kb alias va Hne Halias) as [_ Hv].
  unfold unsafe_ask. change (form_fields self) with [B; A].
  cbn [length]. rewrite while_loop_unfold.
  unfold all_answered at 1. change (form_fields self) with [B; A].
  cbn [forallb key B]. rewrite lookup_empty.
  rewrite bool_decide_eq_false_2 by (by intros [? ?]). cbn [andb].
  (* the first pass *)
  cbv zeta. rewrite for_fields_cons.
  rewrite (field_body_reads_nothing self p B s alias pr) by done.
  cbv beta zeta; cbn [outcome sys log]. rewrite for_fields_cons.
  rewrite (field_body_asked self p ∅ A s va s1);
    [|apply lookup_empty|by left|done].
  cbv beta zeta; cbn [outcome sys log for_fields ret app key A B].
  rewrite (insert_empty (M := gmap string)), map_size_singleton.
  cbn [Nat.eqb].
  (* the second pass *)
  rewrite while_loop_unfold.
  unfold all_answered at 1. change (form_fields self) with [B; A].
  cbn [forallb key A B]. rewrite lookup_singleton_ne by done.
  rewrite bool_decide_eq_false_2 by (by intros [? ?]). cbn [andb].
  cbv zeta. rewrite for_fields_cons.
  rewrite (field_body_reads self p {[ka := va]} B s1 alias pr va vb s2);
    [|by apply lookup_singleton_ne|done|done|done].
  cbv beta zeta; cbn [outcome sys log]. rewrite for_fields_cons.
  rewrite (field_body_answered self p _ A _ va);
    [|by cbn [key A]; rewrite lookup_insert_ne, lookup_singleton_eq].
  cbv beta zeta; cbn [outcome sys log for_fields ret app key A B question].
  rewrite insert_insert_ne, insert_singleton_eq by done.
  rewrite map_size_insert_None by (by apply lookup_singleton_ne).
  rewrite map_size_singleton. cbn [Nat.eqb fmap option_fmap option_map].
  rewrite while_loop_unfold.
  unfold all_answered. change (form_fields self) with [B; A].
  cbn [forallb key A B].
  rewrite lookup_insert_eq, lookup_insert_ne, lookup_singleton_eq by done.
  rewrite !bool_decide_eq_true_2 by done.
  cbn [andb fmap option_fmap option_map add_pass result final passes].
  reflexivity.
Qed.

(** C2. A form of two fields with distinct keys, where the condition of
    field B reads the answer of field A (under its key or under its
    question) and A has no condition, A's question answers [va], and B's
    question answers [vb] if it is asked.  With A registered first,
    [unsafe_ask] completes in one pass, asking A and then asking or
    defaulting B.  With B registered first it completes in exactly two
    passes: the first finds B pending (nothing recorded, nothing raised)
    and asks A; the second answers B, from A's answer, and visits A
    again. *)
Theorem dependency_order_passes (qa qb : Question World) (ka kb : string)
    (alias : vkey) (pr : value → bool) p s va s1 vb s2 :
  ka ≠ kb →
  alias = inr ka ∨ alias = inl (question_id qa) →
  question_unsafe_ask qa p s = (inr va, s1) →
  (pr va = false → question_unsafe_ask qb p s1 = (inr vb, s2)) →
  let A := mkFormField ka qa in
  let B := mkFormField kb qb in
  let b_answer := if pr va then question_default qb else vb in
  let b_visit := if pr va then EvDefaulted kb (question_default qb)
                 else EvAsked kb (inr vb) in
  let s_end := if pr va then s1 else s2 in
  unsafe_ask (skip_if (Form_init [A; B]) [(kb, reads alias pr)]) p s
  = Some (mkRun (inr (<[kb := b_answer]> {[ka := va]})) s_end
            [[EvAsked ka (inr va); b_visit]])
  ∧ ∃ answers,
      unsafe_ask (skip_if (Form_init [B; A]) [(kb, reads alias pr)]) p s
      = Some (mkRun (inr answers) s_end
                [[EvPending kb; EvAsked ka (inr va)];
                 [b_visit; EvDefaulted ka (question_default qa)]])
      ∧ dom answers = {[ka; kb]}
      ∧ answers !! kb = Some b_answer.
Proof.
  intros Hne Halias Ha Hb. simpl. split.
  - by apply unsafe_ask_a_before_b.
  - eexists. split; [by apply unsafe_ask_b_before_a|]. split.
    + rewrite !dom_insert_L, dom_singleton_L. set_solver.
    + by rewrite lookup_insert_ne, lookup_insert_eq.
Qed.

(** ** Every call: passes, keys, exceptions *)

Lemma not_all_answered_size self answers :
  dom answers ⊆ field_keys self →
  all_answered self answers = false →
  size answers < size (field_keys self).
Proof.
  intros Hb Hall. rewrite <- size_dom.
  apply subset_size. split; [done|]. intros Hsub.
  apply all_answered_spec in Hsub. congruence.
Qed.

Lemma while_loop_passes_bound fuel self p answers s r :
  dom answers ⊆ field_keys self →
  while_loop fuel self p (size answers) answers s = Some r →
  length (passes r) + size answers ≤ size (field_keys self).
Proof.
  revert answers s r. induction fuel as [|fuel IH]; intros answers s r Hb;
    rewrite while_loop_unfold;
    destruct (all_answered self answers) eqn:Hall; try done;
    try (intros [= <-]; simpl; rewrite <- size_dom; by apply subseteq_size).
  pose proof (not_all_answered_size _ _ Hb Hall) as Hlt. cbv zeta.
  destruct (outcome (for_fields self p (form_fields self) answers s))
    as [e|answers'] eqn:Hpass; [intros [= <-]; simpl; lia|].
  destruct (pass_progress _ _ _ _ _ Hpass Hb) as (H1 & H2 & H3 & H4).
  destruct (Nat.eqb_spec (size answers) (size answers')) as [|Hne];
    [intros [= <-]; simpl; lia|].
  destruct (while_loop fuel self p (size answers') answers' _) as [r'|]
    eqn:Hr'; [|done].
  intros [= <-]. apply IH in Hr'; [|done]. simpl. lia.
Qed.

(** X1. [Form.unsafe_ask] always ends, and after no more passes than the
    form has distinct keys (so no more than it has fields); a larger bound
    on the passes gives the same run. *)
Theorem unsafe_ask_pass_bound self p s :
  ∃ r, unsafe_ask self p s = Some r
       ∧ length (passes r) ≤ size (field_keys self)
       ∧ size (field_keys self) ≤ length (form_fields self)
       ∧ ∀ fuel, length (form_fields self) ≤ fuel →
                 while_loop fuel self p 0 ∅ s = Some r.
Proof.
  destruct (unsafe_ask_returns self p s) as [r Hr]. exists r.
  split; [done|]. split; [|split; [apply size_field_keys|]].
  - unfold unsafe_ask in Hr.
    change 0 with (size (∅ : gmap string value)) in Hr at 1.
    apply while_loop_passes_bound in Hr.
    + rewrite map_size_empty in Hr. lia.
    + rewrite dom_empty_L. set_solver.
  - intros fuel Hle. by rewrite unsafe_ask_fuel.
Qed.

Lemma while_loop_result_dom fuel self p prev answers s r answers' :
  dom answers ⊆ field_keys self →
  while_loop fuel self p prev answers s = Some r →
  result r = inr answers' →
  dom answers' = field_keys self.
Proof.
  revert prev answers s r. induction fuel as [|fuel IH];
    intros prev answers s r Hb; rewrite while_loop_unfold;
    destruct (all_answered self answers) eqn:Hall; try done;
    try (intros [= <-]; simpl; intros [= <-];
         apply all_answered_spec in Hall; set_solver).
  cbv zeta.
  destruct (outcome (for_fields self p (form_fields self) answers s))
    as [e|a1] eqn:Hpass; [by intros [= <-]|].
  destruct (Nat.eqb prev (size a1)); [by intros [= <-]|].
  destruct (while_loop fuel self p (size a1) a1 _) as [r'|] eqn:Hr';
    [|done].
  intros [= <-]. simpl. eapply IH; [|done].
  by destruct (pass_progress _ _ _ _ _ Hpass Hb) as (_ & ? & _).
Qed.

(** X2. The keys of a mapping returned by [Form.unsafe_ask] are exactly the
    keys of the fields: every field key is there and no other key, whatever
    the conditions, and also when fields share a key. *)
Theorem unsafe_ask_result_keys self p s r answers :
  unsafe_ask self p s = Some r →
  result r = inr answers →
  dom answers = field_keys self
  ∧ ∀ k, is_Some (answers !! k) ↔ ∃ f, f ∈ form_fields self ∧ key f = k.
Proof.
  intros Hr Hres.
  assert (dom answers = field_keys self) as Hdom.
  { eapply while_loop_result_dom; [|exact Hr|done].
    rewrite dom_empty_L. set_solver. }
  split; [done|]. intros k. rewrite <- elem_of_dom, Hdom.
  unfold field_keys. rewrite elem_of_list_to_set, list_elem_of_fmap.
  naive_solver.
Qed.

Lemma for_fields_no_KeyError self p fields answers s k :
  outcome (for_fields self p fields answers s) ≠ inl (KeyError k).
Proof.
  revert answers s. induction fields as [|f fields IH]; intros answers s;
    [done|].
  rewrite for_fields_cons.
  visit_cases self p answers f s; try apply IH; intros [= ->]; done.
Qed.

Lemma while_loop_no_KeyError fuel self p prev answers s r k :
  while_loop fuel self p prev answers s = Some r →
  result r ≠ inl (KeyError k).
Proof.
  revert prev answers s r. induction fuel as [|fuel IH];
    intros prev answers s r; rewrite while_loop_unfold;
    destruct (all_answered self answers); try done;
    try by intros [= <-].
  cbv zeta.
  pose proof (for_fields_no_KeyError self p (form_fields self) answers s k)
    as Hpass.
  destruct (outcome (for_fields self p (form_fields self) answers s))
    as [e|a1]; [intros [= <-]; simpl; congruence|].
  destruct (Nat.eqb prev (size a1)); [by intros [= <-]|].
  destruct (while_loop fuel self p (size a1) a1 _) as [r'|] eqn:Hr';
    [|done].
  intros [= <-]. simpl. by eapply IH.
Qed.

(** X3. [Form.unsafe_ask] never raises [KeyError], neither one of a skip
    condition nor one of a question: all are caught in the loop.
    [Form.ask] always ends too, and raises neither [KeyError] nor
    [KeyboardInterrupt]. *)
Theorem no_KeyError_leaves_the_form self p kbi_msg s :
  ∃ r r',
    unsafe_ask self p s = Some r
    ∧ ask self p kbi_msg s = Some r'
    ∧ (∀ k, result r ≠ inl (KeyError k))
    ∧ (∀ k, result r' ≠ inl (KeyError k))
    ∧ result r' ≠ inl KeyboardInterrupt.
Proof.
  destruct (unsafe_ask_returns self p s) as [r Hr].
  pose proof (λ k, while_loop_no_KeyError _ _ _ _ _ _ _ k Hr) as Hk.
  unfold ask. rewrite Hr.
  destruct (result r) as [e|answers] eqn:Hres.
  - destruct e; eexists _, _; (split; [done|]); (split; [done|]);
      simpl; rewrite ?Hres; repeat split; try done;
      intros; by rewrite ?Hres.
  - eexists _, _. split; [done|]. split; [done|]. by rewrite Hres.
Qed.

(** ** Where the answers come from *)

Lemma field_body_from_field self p answers f s answers' :
  f ∈ form_fields self →
  (∀ k v, answers !! k = Some v → from_field self p k v) →
  outcome (field_body self p answers f s) = inr answers' →
  ∀ k v, answers' !! k = Some v → from_field self p k v.
Proof.
  intros Hf Hinv.
  visit_cases self p answers f s; intros [= <-] k v; try by apply Hinv.
  - destruct (decide (key f = k)) as [<-|Hne].
    + rewrite lookup_insert_eq. intros [= <-]. exists f. auto.
    + rewrite lookup_insert_ne by done. apply Hinv.
  - destruct (decide (key f = k)) as [<-|Hne].
    + rewrite lookup_insert_eq. intros [= <-]. exists f.
      split; [done|]. split; [done|]. right. eauto.
    + rewrite lookup_insert_ne by done. apply Hinv.
Qed.

Lemma for_fields_from_field self p fields answers s answers' :
  fields ⊆ form_fields self →
  (∀ k v, answers !! k = Some v → from_field self p k v) →
  outcome (for_fields self p fields answers s) = inr answers' →
  ∀ k v, answers' !! k = Some v → from_field self p k v.
Proof.
  revert answers s. induction fields as [|f fields IH];
    intros answers s Hsub Hinv.
  - simpl. by intros [= <-].
  - rewrite for_fields_cons. cbv zeta.
    pose proof (field_body_from_field self p answers f s) as Hf.
    destruct (outcome (field_body self p answers f s)) as [e|a1];
      cbn [outcome]; [done|].
    apply IH; [set_solver|]. apply Hf; [set_solver|done|done].
Qed.

Lemma while_loop_from_field fuel self p prev answers s r answers' :
  (∀ k v, answers !! k = Some v → from_field self p k v) →
  while_loop fuel self p prev answers s = Some r →
  result r = inr answers' →
  ∀ k v, answers' !! k = Some v → from_field self p k v.
Proof.
  revert prev answers s r. induction fuel as [|fuel IH];
    intros prev answers s r Hinv; rewrite while_loop_unfold;
    destruct (all_answered self answers); try done;
    try (intros [= <-]; simpl; by intros [= <-]).
  cbv zeta.
  pose proof (for_fields_from_field self p (form_fields self) answers s)
    as Hpass.
  destruct (outcome (for_fields self p (form_fields self) answers s))
    as [e|a1]; [by intros [= <-]|].
  destruct (Nat.eqb prev (size a1)); [by intros [= <-]|].
  destruct (while_loop fuel self p (size a1) a1 _) as [r'|] eqn:Hr';
    [|done].
  intros [= <-]. simpl. eapply IH; [|done]. by apply Hpass.
Qed.

(** X4. Every value of a mapping returned by [Form.unsafe_ask] comes from
    a field of its key: it is the default of that field's question or a
    value that this question produced when asked. *)
Theorem unsafe_ask_values_from_fields self p s r answers k v :
  unsafe_ask self p s = Some r →
  result r = inr answers →
  answers !! k = Some v →
  ∃ f, f ∈ form_fields self ∧ key f = k
       ∧ (v = question_default (question f)
          ∨ ∃ s1 s2, question_unsafe_ask (question f) p s1 = (inr v, s2)).
Proof.
  intros Hr Hres Hk.
  eapply (while_loop_from_field _ self p); [|exact Hr|exact Hres|exact Hk].
  intros k' v'. by rewrite lookup_empty.
Qed.

(** ** No key is asked twice with success *)

Lemma asked_keys_app (l1 l2 : list event) :
  asked_keys (l1 ++ l2) = (asked_keys l1 ++ asked_keys l2)%list.
Proof. apply omap_app. Qed.

Lemma elem_of_asked_keys (l : list event) (k : string) :
  k ∈ asked_keys l ↔ ∃ v, EvAsked k (inr v) ∈ l.
Proof.
  unfold asked_keys. rewrite list_elem_of_omap. split.
  - intros ([k'|k' [e|v]|k' v] & Hin & Heq); simplify_eq. eauto.
  - intros [v Hv]. by exists (EvAsked k (inr v)).
Qed.

(** In a pass the keys asked with success are distinct, were not answered
    before the pass and are answered after it. *)
Lemma for_fields_asked_keys self p fields answers s :
  let r := for_fields self p fields answers s in
  NoDup (asked_keys (log r))
  ∧ ∀ k, k ∈ asked_keys (log r) →
         answers !! k = None
         ∧ ∀ answers', outcome r = inr answers' → is_Some (answers' !! k).
Proof.
  revert answers s. induction fields as [|f fields IH]; intros answers s.
  { simpl. split; [constructor|]. by intros k ?%elem_of_nil. }
  cbv zeta. rewrite for_fields_cons. cbv zeta.
  destruct (field_body_cases self p answers f s)
    as [[Hk Hv]|[Hv|[(e & He & Hv)|[(v & s' & Hk & Hq & Hv)|
        [(k' & s' & Hk & Hq & Hv)|(e & s' & He & Hq & Hv)]]]]];
    rewrite Hv; cbn [outcome sys log].
  - (* pending *)
    rewrite asked_keys_app. apply IH.
  - (* default stored *)
    rewrite asked_keys_app.
    destruct (IH (<[key f := question_default (question f)]> answers) s)
      as [Hnd Hks].
    split; [done|]. intros k Hin. destruct (Hks k Hin) as [Hnone Hsome].
    split; [|done].
    apply lookup_insert_None in Hnone. tauto.
  - split; [constructor|]. by intros k ?%elem_of_nil.
  - (* asked with success *)
    rewrite asked_keys_app.
    change (asked_keys [EvAsked (key f) (inr v)]) with [key f].
    destruct (IH (<[key f := v]> answers) s') as [Hnd Hks].
    pose proof (for_fields_dom self p fields (<[key f := v]> answers) s')
      as Hdom.
    split.
    + apply NoDup_cons. split; [|done]. intros Hin.
      destruct (Hks _ Hin) as [Hnone _].
      by rewrite lookup_insert_eq in Hnone.
    + intros k [->|Hin]%elem_of_cons.
      * split; [done|]. intros a2 Hout. apply elem_of_dom.
        apply (proj1 (Hdom a2 Hout)). rewrite dom_insert_L. set_solver.
      * destruct (Hks k Hin) as [Hnone Hsome]. split; [|done].
        apply lookup_insert_None in Hnone. tauto.
  - rewrite asked_keys_app. apply IH.
  - split; [constructor|]. by intros k ?%elem_of_nil.
Qed.

Lemma while_loop_asked_keys fuel self p prev answers s r :
  while_loop fuel self p prev answers s = Some r →
  NoDup (asked_keys (concat (passes r)))
  ∧ ∀ k, k ∈ asked_keys (concat (passes r)) → answers !! k = None.
Proof.
  revert prev answers s r. induction fuel as [|fuel IH];
    intros prev answers s r; rewrite while_loop_unfold;
    destruct (all_answered self answers); try done;
    try (intros [= <-]; simpl; split; [constructor|];
         by intros k ?%elem_of_nil).
  cbv zeta.
  destruct (for_fields_asked_keys self p (form_fields self) answers s)
    as [Hnd Hks].
  pose proof (for_fields_dom self p (form_fields self) answers s) as Hdom.
  destruct (outcome (for_fields self p (form_fields self) answers s))
    as [e|a1].
  { intros [= <-]. simpl. rewrite app_nil_r. split; [done|].
    intros k Hin. by destruct (Hks k Hin). }
  destruct (Nat.eqb prev (size a1)).
  { intros [= <-]. simpl. rewrite app_nil_r. split; [done|].
    intros k Hin. by destruct (Hks k Hin). }
  destruct (while_loop fuel self p (size a1) a1 _) as [r'|] eqn:Hr';
    [|done].
  intros [= <-]. simpl. rewrite asked_keys_app.
  destruct (IH _ _ _ _ Hr') as [Hnd' Hks'].
  destruct (Hdom a1 eq_refl) as [Hsub _].
  split.
  - apply NoDup_app. split; [done|]. split; [|done].
    intros k Hin Hin'. destruct (Hks k Hin) as [_ Hsome].
    specialize (Hsome a1 eq_refl). rewrite (Hks' k Hin') in Hsome.
    by destruct Hsome.
  - intros k [Hin|Hin]%elem_of_app; [by destruct (Hks k Hin)|].
    apply not_elem_of_dom. intros Hd%Hsub.
    apply elem_of_dom in Hd. rewrite (Hks' k Hin) in Hd. by destruct Hd.
Qed.

(** X5. In one call of [Form.unsafe_ask] no key is asked with success
    twice, whether the call returns or raises, and also when several fields
    share the key: the keys of the successful asks of the whole call are
    pairwise distinct. *)
Theorem unsafe_ask_asks_a_key_once self p s :
  ∃ r, unsafe_ask self p s = Some r
       ∧ NoDup (asked_keys (concat (passes r))).
Proof.
  destruct (unsafe_ask_returns self p s) as [r Hr]. exists r.
  split; [done|]. by destruct (while_loop_asked_keys _ _ _ _ _ _ _ Hr).
Qed.

(** ** The values returned after several passes *)

(** A full pass stores the default of every field that it finds
    answered. *)
Lemma for_fields_revisits self p fields answers s answers' f :
  f ∈ fields →
  is_Some (answers !! key f) →
  outcome (for_fields self p fields answers s) = inr answers' →
  EvDefaulted (key f) (question_default (question f))
    ∈ log (for_fields self p fields answers s).
Proof.
  revert answers s. induction fields as [|g fields IH]; intros answers s.
  { by intros ?%elem_of_nil. }
  intros Hf [v Hv]. rewrite for_fields_cons. cbv zeta.
  apply elem_of_cons in Hf as [<-|Hf].
  - rewrite (field_body_answered self p answers f s v Hv).
    cbn [outcome sys log]. intros _. by left.
  - pose proof (field_body_dom self p answers g s) as Hdom.
    destruct (outcome (field_body self p answers g s)) as [e|a1];
      cbn [outcome log]; [done|].
    intros Hout. apply elem_of_app. right. apply IH; [done| |done].
    apply elem_of_dom. apply (proj1 (Hdom a1 eq_refl)).
    apply elem_of_dom. eauto.
Qed.

Lemma for_fields_asked_answered self p fields answers s answers' k v :
  EvAsked k (inr v) ∈ log (for_fields self p fields answers s) →
  outcome (for_fields self p fields answers s) = inr answers' →
  is_Some (answers' !! k).
Proof.
  intros Hin Hout.
  destruct (for_fields_asked_keys self p fields answers s) as [_ Hks].
  destruct (Hks k) as [_ Hsome]; [apply elem_of_asked_keys; eauto|].
  by apply Hsome.
Qed.

Lemma passes_cons_snoc (L : list event) (ps earlier : list (list event))
    (last : list event) :
  L :: ps = (earlier ++ [last])%list →
  (earlier = [] ∧ L = last ∧ ps = [])
  ∨ ∃ earlier', earlier = L :: earlier' ∧ ps = (earlier' ++ [last])%list.
Proof.
  destruct earlier as [|e earlier']; simpl; intros [= -> ->]; eauto.
Qed.

(** In the last pass of a call that returns, every field answered before
    that pass has its default stored. *)
Lemma while_loop_last_pass_revisits fuel self p prev answers s r answers'
    earlier last f :
  while_loop fuel self p prev answers s = Some r →
  result r = inr answers' →
  passes r = (earlier ++ [last])%list →
  f ∈ form_fields self →
  is_Some (answers !! key f)
  ∨ (∃ v, EvAsked (key f) (inr v) ∈ concat earlier) →
  EvDefaulted (key f) (question_default (question f)) ∈ last.
Proof.
  intros Hr Hres Hps Hf. revert prev answers s r earlier Hr Hres Hps.
  induction fuel as [|fuel IH]; intros prev answers s r earlier;
    rewrite while_loop_unfold;
    destruct (all_answered self answers); try done;
    try (intros [= <-]; simpl; intros _ Hps; by destruct earlier).
  cbv zeta.
  pose proof (for_fields_revisits self p (form_fields self) answers s)
    as Hrev.
  pose proof (for_fields_asked_answered self p (form_fields self) answers s)
    as Hasked.
  pose proof (for_fields_dom self p (form_fields self) answers s) as Hdom.
  destruct (outcome (for_fields self p (form_fields self) answers s))
    as [e|a1]; [by intros [= <-]|].
  destruct (Nat.eqb prev (size a1)); [by intros [= <-]|].
  destruct (while_loop fuel self p (size a1) a1 _) as [r'|] eqn:Hr';
    [|done].
  intros [= <-]. simpl. intros Hres Hps Hbefore.
  destruct (Hdom a1 eq_refl) as [Hsub _].
  apply passes_cons_snoc in Hps
    as [(-> & <- & Hnil)|(earlier' & -> & Hps)].
  - destruct Hbefore as [Hsome|[v Hv]]; [|by apply elem_of_nil in Hv].
    by eapply Hrev.
  - eapply (IH _ _ _ _ earlier' Hr' Hres Hps).
    destruct Hbefore as [Hsome|[v Hv]].
    + left. apply elem_of_dom, Hsub, elem_of_dom, Hsome.
    + simpl in Hv. apply elem_of_app in Hv as [Hv|Hv]; [left|right; eauto].
      by eapply Hasked.
Qed.

(** X6. In a form with distinct keys, when a call of [Form.unsafe_ask]
    returns after more than one pass, every field whose question was asked
    with success before the last pass is visited again in the last pass,
    where its default is stored: the mapping returned holds the default of
    the question under that key, whatever the question had produced. *)
Theorem earlier_answers_are_defaults self p s r answers earlier last f v :
  NoDup (key <$> form_fields self) →
  f ∈ form_fields self →
  unsafe_ask self p s = Some r →
  result r = inr answers →
  passes r = (earlier ++ [last])%list →
  EvAsked (key f) (inr v) ∈ concat earlier →
  EvDefaulted (key f) (question_default (question f)) ∈ last
  ∧ answers !! key f = Some (question_default (question f)).
Proof.
  intros Hnd Hf Hr Hres Hps Hv.
  assert (EvDefaulted (key f) (question_default (question f)) ∈ last)
    as Hlast.
  { eapply while_loop_last_pass_revisits; [exact Hr|done|done|done|].
    right. eauto. }
  split; [done|].
  eapply while_loop_keeps_default; [|exact Hr|done|].
  - intros g Hg Heq. f_equal. f_equal.
    apply list_elem_of_lookup in Hf as [i Hi].
    apply list_elem_of_lookup in Hg as [j Hj].
    assert (i = j) as ->; [|congruence].
    eapply NoDup_lookup; [exact Hnd| |];
      rewrite list_lookup_fmap; [by rewrite Hi|rewrite Hj; simpl].
    by rewrite Heq.
  - right. rewrite Hps, concat_app. apply elem_of_app. right.
    simpl. by rewrite app_nil_r.
Qed.

(** A visit of a field of another key leaves the entry of [k] alone. *)
Lemma for_fields_other_keys self p fields answers s answers' (k : string) :
  k ∉ key <$> fields →
  outcome (for_fields self p fields answers s) = inr answers' →
  answers' !! k = answers !! k.
Proof.
  revert answers s. induction fields as [|f fields IH]; intros answers s.
  { simpl. by intros _ [= <-]. }
  rewrite fmap_cons, not_elem_of_cons. intros [Hne Hk].
  rewrite for_fields_cons.
  visit_cases self p answers f s; try done; intros Hout;
    rewrite (IH _ _ Hk Hout); try done; by rewrite lookup_insert_ne.
Qed.

(** With distinct keys, what a question produced in a pass is in the
    answers at the end of that pass. *)
Lemma for_fields_keeps_asked self p fields answers s answers' k v :
  NoDup (key <$> fields) →
  outcome (for_fields self p fields answers s) = inr answers' →
  EvAsked k (inr v) ∈ log (for_fields self p fields answers s) →
  answers' !! k = Some v.
Proof.
  revert answers s. induction fields as [|f fields IH]; intros answers s.
  { simpl. by intros _ _ ?%elem_of_nil. }
  rewrite fmap_cons, NoDup_cons. intros [Hf Hnd].
  rewrite for_fields_cons.
  visit_cases self p answers f s; try done; intros Hout;
    rewrite ?elem_of_cons; try (intros [?|Hin]; [done|by eapply IH]);
    try (intros ?%elem_of_nil; done).
  intros [[= -> ->]|Hin]; [|by eapply IH].
  rewrite (for_fields_other_keys _ _ _ _ _ _ _ Hf Hout).
  apply lookup_insert_eq.
Qed.

Lemma while_loop_no_pass fuel self p prev answers s r :
  while_loop fuel self p prev answers s = Some r →
  passes r = [] →
  result r = inr answers.
Proof.
  rewrite while_loop_unfold.
  destruct (all_answered self answers); [by intros [= <-]|].
  destruct fuel as [|fuel]; [done|]. cbv zeta.
  destruct (outcome (for_fields self p (form_fields self) answers s))
    as [e|a1]; [by intros [= <-]|].
  destruct (Nat.eqb prev (size a1)); [by intros [= <-]|].
  destruct (while_loop fuel self p (size a1) a1 _) as [r'|]; [|done].
  by intros [= <-].
Qed.

Lemma while_loop_last_pass_kept fuel self p prev answers s r answers'
    earlier last k v :
  NoDup (key <$> form_fields self) →
  while_loop fuel self p prev answers s = Some r →
  result r = inr answers' →
  passes r = (earlier ++ [last])%list →
  EvAsked k (inr v) ∈ last →
  answers' !! k = Some v.
Proof.
  intros Hnd Hr Hres Hps Hv. revert prev answers s r earlier Hr Hres Hps.
  induction fuel as [|fuel IH]; intros prev answers s r earlier;
    rewrite while_loop_unfold;
    destruct (all_answered self answers); try done;
    try (intros [= <-]; simpl; intros _ Hps; by destruct earlier).
  cbv zeta.
  pose proof (for_fields_keeps_asked self p (form_fields self) answers s)
    as Hkept.
  destruct (outcome (for_fields self p (form_fields self) answers s))
    as [e|a1]; [by intros [= <-]|].
  destruct (Nat.eqb prev (size a1)); [by intros [= <-]|].
  destruct (while_loop fuel self p (size a1) a1 _) as [r'|] eqn:Hr';
    [|done].
  intros [= <-]. simpl. intros Hres Hps.
  apply passes_cons_snoc in Hps
    as [(-> & <- & Hnil)|(earlier' & -> & Hps)].
  - pose proof (while_loop_no_pass _ _ _ _ _ _ _ Hr' Hnil) as Hres'.
    rewrite Hres in Hres'. injection Hres' as ->. by eapply Hkept.
  - by eapply (IH _ _ _ _ earlier' Hr' Hres Hps).
Qed.

(** X7. In a form with distinct keys, what a question produced in the
    last pass of a call of [Form.unsafe_ask] that returns is the value of
    its key in the mapping returned; in particular a call that needs a
    single pass returns every answer as it was given. *)
Theorem last_pass_answers_are_returned self p s r answers earlier last k v :
  NoDup (key <$> form_fields self) →
  unsafe_ask self p s = Some r →
  result r = inr answers →
  passes r = (earlier ++ [last])%list →
  EvAsked k (inr v) ∈ last →
  answers !! k = Some v.
Proof. intros Hnd Hr. by eapply while_loop_last_pass_kept. Qed.

(** ** Registering conditions *)

Lemma skip_if_lookup_other self (conds : list (string * SkipCondition))
    (k : string) :
  k ∉ conds.*1 →
  skip_conditions (skip_if self conds) !! k = skip_conditions self !! k.
Proof.
  unfold skip_if. simpl. generalize (skip_conditions self).
  induction conds as [|[k' c'] conds IH]; intros m; [done|].
  rewrite fmap_cons, not_elem_of_cons. simpl. intros [Hne Hk].
  rewrite IH by done. by rewrite lookup_insert_ne.
Qed.

Lemma skip_if_lookup_last self (c1 c2 : list (string * SkipCondition))
    (k : string) c :
  k ∉ c2.*1 →
  skip_conditions (skip_if self (c1 ++ (k, c) :: c2)) !! k = Some c.
Proof.
  intros Hk. unfold skip_if. simpl. rewrite foldl_app. simpl.
  pose proof (skip_if_lookup_other
                (mkForm (form_fields self)
                   (<[k := c]> (foldl (λ m kc, <[kc.1 := kc.2]> m)
                                      (skip_conditions self) c1)))
                c2 k Hk) as H.
  unfold skip_if in H. simpl in H. rewrite H. apply lookup_insert_eq.
Qed.

(** X8. [Form.skip_if] keeps the fields; two calls in a row register
    what one call with all the conditions registers; for a key the last
    condition given is the one kept, and the condition of a key that the
    call does not name stays as it was. *)
Theorem skip_if_registers self (c1 c2 : list (string * SkipCondition)) :
  form_fields (skip_if self c1) = form_fields self
  ∧ skip_if (skip_if self c1) c2 = skip_if self (c1 ++ c2)
  ∧ (∀ (k : string) c, k ∉ c2.*1 →
       skip_conditions (skip_if self (c1 ++ (k, c) :: c2)) !! k = Some c)
  ∧ (∀ k : string, k ∉ c1.*1 →
       skip_conditions (skip_if self c1) !! k = skip_conditions self !! k).
Proof.
  split; [done|]. split; [|split].
  - unfold skip_if. simpl. by rewrite foldl_app.
  - intros k c. apply skip_if_lookup_last.
  - intros k. apply skip_if_lookup_other.
Qed.

(** ** Conditions that no field reads *)

Lemma field_body_conditions_ext self1 self2 p answers f s :
  form_fields self1 = form_fields self2 →
  skip_conditions self1 !! key f = skip_conditions self2 !! key f →
  field_body self1 p answers f s = field_body self2 p answers f s.
Proof.
  intros Hf Hc. rewrite !field_body_unfold. cbv zeta.
  unfold SkipCondition in *. by rewrite Hf, Hc.
Qed.

Lemma for_fields_conditions_ext self1 self2 p fields answers s :
  form_fields self1 = form_fields self2 →
  (∀ f, f ∈ fields →
        skip_conditions self1 !! key f = skip_conditions self2 !! key f) →
  for_fields self1 p fields answers s = for_fields self2 p fields answers s.
Proof.
  intros Hf. revert answers s. induction fields as [|f fields IH];
    intros answers s Hc; [done|].
  rewrite !for_fields_cons.
  rewrite (field_body_conditions_ext self1 self2) by (auto; apply Hc; by left).
  cbv zeta.
  destruct (outcome (field_body self2 p answers f s)); [done|].
  rewrite IH; [done|]. intros f' Hf'. apply Hc. by right.
Qed.

Lemma while_loop_conditions_ext fuel self1 self2 p prev answers s :
  form_fields self1 = form_fields self2 →
  (∀ f, f ∈ form_fields self1 →
        skip_conditions self1 !! key f = skip_conditions self2 !! key f) →
  while_loop fuel self1 p prev answers s
  = while_loop fuel self2 p prev answers s.
Proof.
  intros Hf Hc. rewrite Hf in Hc. revert prev answers s.
  induction fuel as [|fuel IH]; intros prev answers s;
    rewrite !while_loop_unfold; unfold all_answered; rewrite Hf;
    [done|].
  destruct (forallb _ (form_fields self2)); [done|]. cbv zeta.
  rewrite (for_fields_conditions_ext self1 self2) by done.
  destruct (outcome (for_fields self2 p (form_fields self2) answers s));
    [done|].
  destruct (Nat.eqb prev _); [done|]. by rewrite IH.
Qed.

(** X9. Conditions registered for keys that no field has change nothing:
    [Form.unsafe_ask] never evaluates them, and the call goes as
    without them. *)
Theorem conditions_of_unknown_keys_are_ignored self
    (conds : list (string * SkipCondition)) p s :
  (∀ k, k ∈ conds.*1 → k ∉ field_keys self) →
  unsafe_ask (skip_if self conds) p s = unsafe_ask self p s.
Proof.
  intros Hk. unfold unsafe_ask.
  change (form_fields (skip_if self conds)) with (form_fields self).
  apply while_loop_conditions_ext; [done|].
  intros f Hf. apply skip_if_lookup_other. intros Hin. apply (Hk _ Hin).
  unfold field_keys. rewrite elem_of_list_to_set. by apply list_elem_of_fmap_2.
Qed.

(** ** A condition that fails *)

(** X10. When the condition of the first field raises anything but
    [KeyError] on the empty values, [Form.unsafe_ask] raises that exception
    in its first pass, before any question is asked and before anything is
    recorded. *)
Theorem condition_error_aborts self p s f rest c e :
  form_fields self = f :: rest →
  skip_conditions self !! key f = Some c →
  c ∅ = inl e →
  is_KeyError e = false →
  unsafe_ask self p s = Some (mkRun (inl e) s [[]]).
Proof.
  intros Hfields Hc He Hne. unfold unsafe_ask. rewrite while_loop_unfold.
  unfold all_answered. rewrite Hfields. cbn [forallb length].
  rewrite lookup_empty.
  rewrite bool_decide_eq_false_2 by (by intros [? ?]). cbn [andb].
  cbv zeta. rewrite for_fields_cons, field_body_unfold. cbv zeta.
  unfold SkipCondition in *.
  rewrite lookup_empty, Hc, values_view_empty, He, Hne. done.
Qed.

(** ** Forms built by [form] *)

(** The run of a form with no condition and distinct keys whose questions
    answer. *)
Lemma unsafe_ask_no_conditions self p s vs s' :
  skip_conditions self = ∅ →
  NoDup (key <$> form_fields self) →
  ask_in_order p (form_fields self) s = Some (vs, s') →
  unsafe_ask self p s
  = Some (mkRun (inr (list_to_map (zip (key <$> form_fields self) vs))) s'
            match form_fields self with
            | [] => []
            | _ => [zip_with (λ f v, EvAsked (key f) (inr v))
                             (form_fields self) vs]
            end).
Proof.
  intros Hc Hnd Hask.
  pose proof (ask_in_order_length _ _ _ _ _ Hask) as Hlen.
  assert ((zip (key <$> form_fields self) vs).*1 = key <$> form_fields self)
    as Hfst by (apply fst_zip; rewrite length_fmap; lia).
  assert (dom (list_to_map (zip (key <$> form_fields self) vs)
                 : gmap string value) = field_keys self) as Hdom
    by (by rewrite dom_list_to_map_L, Hfst).
  unfold unsafe_ask. rewrite while_loop_unfold.
  destruct (all_answered self ∅) eqn:Hall.
  { apply all_answered_spec in Hall. rewrite dom_empty_L in Hall.
    unfold field_keys in Hall.
    destruct (form_fields self) as [|f fields]; [|set_solver].
    by injection Hask as <- <-. }
  assert (∃ f fields, form_fields self = f :: fields)
    as (f & fields & Hfields).
  { destruct (form_fields self) as [|f fields] eqn:Hfields; [|by eauto].
    unfold all_answered in Hall. by rewrite Hfields in Hall. }
  assert (length (form_fields self) = S (length fields)) as Hlen1
    by by rewrite Hfields.
  set (visits := zip_with (λ f v, EvAsked (key f) (inr v)) _ _).
  assert (match form_fields self with [] => [] | _ => [visits] end
          = [visits]) as -> by by rewrite Hfields.
  rewrite Hlen1. cbv zeta.
  rewrite (for_fields_no_conditions self p (form_fields self) ∅ s vs s');
    [|done|done|intros; apply lookup_empty|done].
  cbn [outcome sys log]. fold visits.
  rewrite (right_id_L ∅ (∪)).
  replace (size (list_to_map (zip (key <$> form_fields self) vs)
                   : gmap string value))
    with (S (length fields)).
  2:{ rewrite <- size_dom, Hdom. unfold field_keys.
      by rewrite size_list_to_set, length_fmap. }
  cbn [Nat.eqb].
  rewrite while_loop_unfold.
  replace (all_answered self _) with true; [done|].
  symmetry. apply all_answered_spec. by rewrite Hdom.
Qed.

Lemma form_keys (kwargs : list (string * Question World)) :
  key <$> form_fields (form kwargs) = kwargs.*1.
Proof.
  unfold form, Form_init. cbn [form_fields].
  induction kwargs as [|[k q] kwargs IH]; [done|].
  cbn [map]. rewrite !fmap_cons. by rewrite IH.
Qed.

(** X11. A form built by [form] from keyword arguments (their names are
    distinct) has no condition: when its questions, asked once each in the
    order of the arguments, produce the values [vs], [unsafe_ask] makes
    those asks in one pass (none for no argument) and returns the mapping
    from each name to the value its question produced. *)
Theorem form_answers_by_keyword (kwargs : list (string * Question World))
    p s vs s' :
  NoDup kwargs.*1 →
  ask_in_order p (form_fields (form kwargs)) s = Some (vs, s') →
  unsafe_ask (form kwargs) p s
  = Some (mkRun (inr (list_to_map (zip kwargs.*1 vs))) s'
            match kwargs with
            | [] => []
            | _ => [zip_with (λ kq v, EvAsked kq.1 (inr v)) kwargs vs]
            end)
  ∧ ∀ i k q v, kwargs !! i = Some (k, q) → vs !! i = Some v →
      (list_to_map (zip kwargs.*1 vs) : gmap string value) !! k = Some v.
Proof.
  intros Hnd Hask. split.
  - pose proof (form_keys kwargs) as Hkeys.
    rewrite (unsafe_ask_no_conditions (form kwargs) p s vs s');
      [|done|by rewrite Hkeys|done].
    rewrite Hkeys. do 2 f_equal.
    destruct kwargs as [|kq kwargs]; [done|].
    change (form_fields (form (kq :: kwargs)))
      with ((λ kq, mkFormField kq.1 kq.2) <$> (kq :: kwargs)).
    cbv match. f_equal.
    generalize (kq :: kwargs). clear. intros l. revert vs.
    induction l as [|x l IH]; intros [|v vs]; simpl; try done.
    by rewrite <- IH.
  - intros i k q v Hi Hv.
    apply ask_in_order_length in Hask.
    apply elem_of_list_to_map_1.
    + rewrite fst_zip; [done|].
      pose proof (form_keys kwargs) as Hkeys.
      rewrite length_fmap, Hask, <- (length_fmap key), Hkeys.
      by rewrite length_fmap.
    + apply list_elem_of_lookup. exists i.
      by rewrite lookup_zip_with, list_lookup_fmap, Hi, Hv.
Qed.

End FormProperties.

(** ** Runs of the example forms *)

(** C1. The form [shade_color "blue"] registers [shade], whose condition
    reads [color], before [color].  The first pass finds [shade] pending and
    asks [color], which answers [blue]; the second pass asks [shade] and
    visits the answered field [color] again: the visit is not a no-op, it
    stores the default [red] over the answer, and the mapping returned
    holds [red] for a key whose question was asked and produced [blue]. *)
Theorem answered_field_is_overwritten :
  unsafe_ask (shade_color "blue") false s0
  = Some (mkRun (inr {[ "shade" := VStr "dark"; "color" := VStr "red" ]}) s0
            [[EvPending "shade"; EvAsked "color" (inr (VStr "blue"))];
             [EvAsked "shade" (inr (VStr "dark"));
              EvDefaulted "color" (VStr "red")]]).
Proof. vm_compute. reflexivity. Qed.

(** C4. A form of one field whose question raises [KeyError]: the
    exception does not leave [unsafe_ask]; it is caught with the pending
    dependencies, the pass adds nothing and [DependencyError] is raised in
    its place. *)
Theorem question_KeyError_is_caught :
  unsafe_ask (form [("name", failing 0 VNone (KeyError (inr "missing")))])
             false s0
  = Some (mkRun (inl (DependencyError dependency_message)) s0
            [[EvAsked "name" (inl (KeyError (inr "missing")))]]).
Proof. vm_compute. reflexivity. Qed.

(** C10. With shortcuts and the i and j keys in use (the latter is the
    default), [select] on [choices = None] does not reach its test for
    [None]: the scan of the choices for shortcut keys comes first and raises
    [TypeError], not [ValueError]. *)
Theorem select_None_with_shortcuts (keys : list string) :
  select keys
    (mkSelectArgs "Pick" None None true false true true true true None)
  = inl (TypeError "'NoneType' object is not iterable").
Proof. reflexivity. Qed.

(** ** [DependencyError] at the example forms *)




(** ** The theorems at the example forms *)

Lemma dependency_order_passes_witness :
  "color" ≠ "shade"
  ∧ question_unsafe_ask (color_question "blue") false s0
    = (inr (VStr "blue"), s0)
  ∧ question_unsafe_ask shade_question false s0 = (inr (VStr "dark"), s0)
  ∧ unsafe_ask (color_shade "blue") false s0
    = Some (mkRun (inr (<["shade" := VStr "dark"]> {["color" := VStr "blue"]}))
              s0
              [[EvAsked "color" (inr (VStr "blue"));
                EvAsked "shade" (inr (VStr "dark"))]])
  ∧ ∃ answers,
      unsafe_ask (shade_color "blue") false s0
      = Some (mkRun (inr answers) s0
                [[EvPending "shade"; EvAsked "color" (inr (VStr "blue"))];
                 [EvAsked "shade" (inr (VStr "dark"));
                  EvDefaulted "color" (VStr "red")]])
      ∧ dom answers = {["color"; "shade"]}
      ∧ answers !! "shade" = Some (VStr "dark").
Proof.
  split; [discriminate|]. split; [reflexivity|]. split; [reflexivity|].
  apply (dependency_order_passes (color_question "blue") shade_question
           "color" "shade" (inr "color") is_red false s0
           (VStr "blue") s0 (VStr "dark") s0).
  - discriminate.
  - left. reflexivity.
  - reflexivity.
  - intros _. reflexivity.
Defined.

Lemma no_conditions_one_pass_witness :
  skip_conditions color_and_shade = ∅
  ∧ NoDup (key <$> form_fields color_and_shade)
  ∧ ask_in_order false (form_fields color_and_shade) s0
    = Some ([VStr "blue"; VStr "dark"], s0)
  ∧ ∃ answers,
      unsafe_ask color_and_shade false s0
      = Some (mkRun (inr answers) s0
                [[EvAsked "color" (inr (VStr "blue"));
                  EvAsked "shade" (inr (VStr "dark"))]])
      ∧ length [VStr "blue"; VStr "dark"]
        = length (form_fields color_and_shade)
      ∧ dom answers = field_keys color_and_shade
      ∧ size answers = length (form_fields color_and_shade)
      ∧ ∀ i f v, form_fields color_and_shade !! i = Some f →
                 [VStr "blue"; VStr "dark"] !! i = Some v →
                 answers !! key f = Some v.
Proof.
  assert (NoDup (key <$> form_fields color_and_shade)) as Hnd.
  { apply (bool_decide_unpack _). vm_compute. exact I. }
  split; [reflexivity|]. split; [exact Hnd|]. split; [reflexivity|].
  apply (no_conditions_one_pass color_and_shade false s0
           [VStr "blue"; VStr "dark"] s0).
  - reflexivity.
  - exact Hnd.
  - reflexivity.
Defined.

Lemma skipped_field_gets_default_witness :
  let shade := mkFormField "shade" shade_question in
  let answers : gmap string value := {["color" := VStr "red"]} in
  let final_answers : gmap string value :=
    <["shade" := VStr "none"]> {["color" := VStr "red"]} in
  let r := mkRun (inr final_answers) s0
             [[EvAsked "color" (inr (VStr "red"));
               EvDefaulted "shade" (VStr "none")]] in
  (answers !! "shade" = None
   ∧ skip_conditions (color_shade "red") !! "shade"
     = Some (reads (inr "color") is_red)
   ∧ reads (inr "color") is_red
       (values_view (form_fields (color_shade "red")) answers) = inr true
   ∧ field_body (color_shade "red") false answers shade s0
     = mkRes (inr final_answers) s0 [EvDefaulted "shade" (VStr "none")])
  ∧ (NoDup (key <$> form_fields (color_shade "red"))
     ∧ shade ∈ form_fields (color_shade "red")
     ∧ unsafe_ask (color_shade "red") false s0 = Some r
     ∧ EvDefaulted "shade" (VStr "none") ∈ concat (passes r)
     ∧ final_answers !! "shade" = Some (VStr "none")).
Proof.
  intros shade answers final_answers r.
  assert (answers !! "shade" = None) as H1 by reflexivity.
  assert (skip_conditions (color_shade "red") !! "shade"
          = Some (reads (inr "color") is_red)) as H2 by reflexivity.
  assert (reads (inr "color") is_red
            (values_view (form_fields (color_shade "red")) answers)
          = inr true) as H3 by (vm_compute; reflexivity).
  assert (NoDup (key <$> form_fields (color_shade "red"))) as H4.
  { apply (bool_decide_unpack _). vm_compute. exact I. }
  assert (shade ∈ form_fields (color_shade "red")) as H5.
  { right. left. }
  assert (unsafe_ask (color_shade "red") false s0 = Some r) as H6
    by (vm_compute; reflexivity).
  assert (EvDefaulted "shade" (VStr "none") ∈ concat (passes r)) as H7.
  { right. left. }
  destruct (skipped_field_gets_default (color_shade "red") false shade)
    as [Hvisit Hrun].
  split.
  - split; [exact H1|]. split; [exact H2|]. split; [exact H3|].
    exact (Hvisit answers s0 _ H1 H2 H3).
  - split; [exact H4|]. split; [exact H5|]. split; [exact H6|].
    split; [exact H7|].
    exact (Hrun H4 H5 s0 r final_answers H6 eq_refl H7).
Defined.

Lemma ask_catches_interruption_only_witness :
  let r1 := mkRun (inl KeyboardInterrupt) s0
              [[EvAsked "name" (inl KeyboardInterrupt)]] in
  let r2 := mkRun (inl (DependencyError dependency_message)) s0
              [[EvPending "name"]] in
  (unsafe_ask interrupted false s0 = Some r1
   ∧ (∃ k, EvAsked k (inl KeyboardInterrupt) ∈ concat (passes r1))
   ∧ result r1 = inl KeyboardInterrupt
   ∧ ask interrupted false "Cancelled by user" s0
     = Some (mkRun (inr ∅) (mkSys tt [""; "Cancelled by user"; ""]%string)
               (passes r1)))
  ∧ (unsafe_ask stuck false s0 = Some r2
     ∧ result r2 ≠ inl KeyboardInterrupt
     ∧ ask stuck false "Cancelled by user" s0 = Some r2).
Proof.
  intros r1 r2.
  assert (unsafe_ask interrupted false s0 = Some r1) as H1
    by (vm_compute; reflexivity).
  assert (∃ k, EvAsked k (inl KeyboardInterrupt) ∈ concat (passes r1))
    as H2.
  { exists "name"%string. left. }
  assert (unsafe_ask stuck false s0 = Some r2) as H3
    by (vm_compute; reflexivity).
  assert (result r2 ≠ inl KeyboardInterrupt) as H4 by discriminate.
  destruct (ask_catches_interruption_only interrupted false
              "Cancelled by user" s0 r1 H1) as (Hraise & Hcatch & _ & _).
  destruct (ask_catches_interruption_only stuck false
              "Cancelled by user" s0 r2 H3) as (_ & _ & Hother & Hdep).
  split.
  - split; [exact H1|]. split; [exact H2|]. split; [exact (Hraise H2)|].
    exact (Hcatch (Hraise H2)).
  - split; [exact H3|]. split; [exact H4|]. exact (Hother H4).
Defined.

Lemma unsafe_ask_repeatable_witness :
  Forall (λ f, deterministic (question f)) (form_fields (shade_color "blue"))
  ∧ ∃ r1 r2,
      unsafe_ask (shade_color "blue") false s0 = Some r1
      ∧ unsafe_ask (shade_color "blue") false (final r1) = Some r2
      ∧ result r1 = result r2
      ∧ passes r1 = passes r2.
Proof.
  assert (Forall (λ f, deterministic (question f))
            (form_fields (shade_color "blue"))) as Hdet.
  { repeat constructor; intros ? ? ?; reflexivity. }
  split; [exact Hdet|].
  exact (unsafe_ask_repeatable (shade_color "blue") false s0 Hdet).
Defined.

(** ** The checks of [select] *)

Lemma select_no_movement keys a :
  use_arrow_keys a = false → use_shortcuts a = false →
  select keys a = inl (ValueError no_movement_message).
Proof. intros Ha Hs. unfold select. by rewrite Ha, Hs. Qed.

(** An empty list of choices is refused with [ValueError], whatever the
    options. *)
Lemma select_empty_choices keys a :
  choices a = Some [] → ∃ msg, select keys a = inl (ValueError msg).
Proof.
  intros Hc. unfold select. rewrite Hc.
  destruct (use_arrow_keys a), (use_shortcuts a), (use_ij_keys a);
    simpl; eauto.
Qed.

(** [None] is refused with [ValueError] when the scan for the shortcut keys
    i and j is not made. *)
Lemma select_no_choices keys a :
  choices a = None → use_shortcuts a && use_ij_keys a = false →
  ∃ msg, select keys a = inl (ValueError msg).
Proof.
  intros Hc Hs. unfold select. rewrite Hc, Hs.
  destruct (use_arrow_keys a), (use_shortcuts a); simpl; eauto.
Qed.

(** A list with an element and a way to move raise neither of the two
    errors. *)
Lemma select_choices_given keys a c cs :
  choices a = Some (c :: cs) → use_arrow_keys a || use_shortcuts a = true →
  select keys a ≠ inl (ValueError no_movement_message)
  ∧ select keys a ≠ inl (ValueError no_choices_message).
Proof.
  intros Hc Hm. unfold select. rewrite Hc, Hm.
  cbn [negb length Nat.eqb].
  destruct (use_shortcuts a && use_ij_keys a);
    [destruct (existsb _ (c :: cs))|];
    destruct (use_shortcuts a && (length keys <? S (length cs)));
    split; try discriminate; intros [= Heq]; revert Heq;
    unfold too_many_message, ij_message, no_movement_message,
      no_choices_message; cbn; discriminate.
Qed.

(** ** What [select] accepts *)

(** X12. [select] passes its checks and builds the [InquirerControl]
    exactly when a way to move is enabled, the choices are a list with at
    least one element, no choice has the shortcut key i or j while
    shortcuts and the i and j keys are both in use, and with shortcuts
    there are no more choices than shortcut keys; the control then gets the
    choices and the options unchanged. *)
Theorem select_accepts_iff (keys : list string) (a : select_args)
    (ic : InquirerControl_call) :
  select keys a = inr ic
  ↔ use_arrow_keys a || use_shortcuts a = true
    ∧ ∃ cs, choices a = Some cs
        ∧ cs ≠ []
        ∧ (use_shortcuts a && use_ij_keys a = true →
           existsb (λ c, in_i_j (getattr_shortcut_key c)) cs = false)
        ∧ (use_shortcuts a = true → length cs ≤ length keys)
        ∧ ic = mkInquirerControl cs (default a) (use_indicator a)
                 (use_shortcuts a) (use_pointer a) (show_selected a)
                 (start a).
Proof.
  unfold select.
  destruct (use_arrow_keys a || use_shortcuts a) eqn:Hmove; simpl.
  2:{ split; [done|]. by intros [? _]. }
  destruct (choices a) as [cs|] eqn:Hcs.
  2:{ split; [|by intros (_ & cs & ? & _)].
      by destruct (use_shortcuts a && use_ij_keys a). }
  assert (∀ b : bool,
    (if b then inr (existsb (λ c, in_i_j (getattr_shortcut_key c)) cs)
     else inr false : exn + bool)
    = inr (b && existsb (λ c, in_i_j (getattr_shortcut_key c)) cs)) as ->
    by (by intros []).
  destruct (use_shortcuts a && use_ij_keys a) eqn:Hij; simpl.
  - destruct (existsb _ cs) eqn:Hex.
    { split; [done|]. intros (_ & cs' & [= <-] & _ & Hno & _).
      specialize (Hno eq_refl). congruence. }
    destruct cs as [|c cs]; simpl.
    { split; [done|]. by intros (_ & cs' & [= <-] & ? & _). }
    apply andb_true_iff in Hij as [Hs _]. rewrite Hs. simpl.
    destruct (Nat.ltb_spec (length keys) (S (length cs))) as [Hlt|Hle].
    + split; [done|]. intros (_ & cs' & [= <-] & _ & _ & Hlen & _).
      specialize (Hlen eq_refl). simpl in Hlen. lia.
    + split.
      * intros [= <-]. split; [done|]. exists (c :: cs).
        repeat split; try done.
      * by intros (_ & cs' & [= <-] & _ & _ & _ & ->).
  - destruct cs as [|c cs]; simpl.
    { split; [done|]. by intros (_ & cs' & [= <-] & ? & _). }
    destruct (use_shortcuts a) eqn:Hs; simpl.
    + destruct (Nat.ltb_spec (length keys) (S (length cs))) as [Hlt|Hle].
      * split; [done|]. intros (_ & cs' & [= <-] & _ & _ & Hlen & _).
        specialize (Hlen eq_refl). simpl in Hlen. lia.
      * split.
        -- intros [= <-]. split; [done|]. exists (c :: cs).
           repeat split; try done.
        -- by intros (_ & cs' & [= <-] & _ & _ & _ & ->).
    + split.
      * intros [= <-]. split; [done|]. exists (c :: cs).
        repeat split; try done.
      * by intros (_ & cs' & [= <-] & _ & _ & _ & ->).
Qed.

(** X13. The checks of [select] raise [ValueError] and nothing else, but
    for one case: [TypeError] is raised exactly when the choices are [None]
    while shortcuts and the i and j keys are both in use. *)
Theorem select_raises (keys : list string) (a : select_args) :
  (select keys a = inl (TypeError "'NoneType' object is not iterable")
   ↔ choices a = None ∧ use_shortcuts a = true ∧ use_ij_keys a = true)
  ∧ ∀ e, select keys a = inl e →
         e = TypeError "'NoneType' object is not iterable"
         ∨ ∃ msg, e = ValueError msg.
Proof.
  unfold select.
  destruct (use_arrow_keys a) eqn:Ha, (use_shortcuts a) eqn:Hs,
    (use_ij_keys a) eqn:Hi, (choices a) as [[|c cs]|] eqn:Hc; simpl;
    try destruct (in_i_j (getattr_shortcut_key c) || _); simpl;
    try destruct (length keys <? S (length cs)); simpl;
    (split; [split; [try done; intros [= ?]; done
                    |try (by intros ([= ?] & _));
                     try (by intros (_ & [= ?] & _));
                     try (by intros (_ & _ & [= ?])); done]
            |intros e [= <-]; eauto]).
Qed.

(** ** The bindings of [select] *)

Lemma shortcut_bindings_elem use_arrow_keys (i : nat)
    (cs : list ControlChoice) bs :
  shortcut_bindings use_arrow_keys i cs = inr bs →
  ∀ b, b ∈ bs
       ↔ ∃ j c k, b = (KChar k, SelectChoice (i + j))
                  ∧ cs !! j = Some c
                  ∧ shortcut_key (cc_choice c) = Some k
                  ∧ cc_is_separator c = false.
Proof.
  revert i bs. induction cs as [|c cs IH]; intros i bs; simpl.
  { intros [= <-] b. split; [by intros ?%elem_of_nil|].
    by intros (j & c & k & _ & ? & _). }
  assert (∀ bs' : list (keyspec * handler), (∀ b, b ∈ bs'
            ↔ ∃ j c' k, b = (KChar k, SelectChoice (S i + j))
                        ∧ cs !! j = Some c'
                        ∧ shortcut_key (cc_choice c') = Some k
                        ∧ cc_is_separator c' = false) →
          (shortcut_key (cc_choice c) = None ∨ cc_is_separator c = true) →
          ∀ b, b ∈ bs'
            ↔ ∃ j c' k, b = (KChar k, SelectChoice (i + j))
                        ∧ (c :: cs) !! j = Some c'
                        ∧ shortcut_key (cc_choice c') = Some k
                        ∧ cc_is_separator c' = false) as Hskip.
  { intros bs' Hbs' Hc b. rewrite Hbs'. split.
    - intros (j & c' & k & -> & Hj & Hk & Hsep).
      exists (S j), c', k. repeat split; try done. f_equal. f_equal. lia.
    - intros ([|j] & c' & k & -> & Hj & Hk & Hsep); simpl in Hj.
      + injection Hj as <-. destruct Hc; congruence.
      + exists j, c', k. repeat split; try done. f_equal. f_equal. lia. }
  destruct (shortcut_key (cc_choice c)) as [k|] eqn:Hk.
  - destruct (cc_is_separator c) eqn:Hsep.
    + intros Hbs. apply Hskip; [by apply IH|by right].
    + destruct (shortcut_bindings use_arrow_keys (S i) cs) as [e|bs']
        eqn:Hrest; [done|].
      intros [= <-] b. rewrite elem_of_cons, (IH _ _ Hrest). split.
      * intros [->|(j & c' & k' & -> & Hj & Hk' & Hsep')].
        -- exists 0, c, k. repeat split; try done. f_equal. f_equal. lia.
        -- exists (S j), c', k'. repeat split; try done.
           f_equal. f_equal. lia.
      * intros ([|j] & c' & k' & -> & Hj & Hk' & Hsep'); simpl in Hj.
        -- injection Hj as <-. left. rewrite Hk in Hk'.
           injection Hk' as <-. f_equal. f_equal. lia.
        -- right. exists j, c', k'. repeat split; try done.
           f_equal. f_equal. lia.
  - destruct use_arrow_keys; simpl; [|done].
    intros Hbs. apply Hskip; [by apply IH|by left].
Qed.

Lemma shortcut_bindings_raises use_arrow_keys (i : nat)
    (cs : list ControlChoice) e :
  shortcut_bindings use_arrow_keys i cs = inl e
  ↔ use_arrow_keys = false
    ∧ ∃ j c, cs !! j = Some c
             ∧ shortcut_key (cc_choice c) = None
             ∧ (∀ j' c', j' < j → cs !! j' = Some c' →
                         is_Some (shortcut_key (cc_choice c')))
             ∧ e = OtherError "RuntimeError"
                     (unreachable_message (title (cc_choice c))).
Proof.
  revert i. induction cs as [|c cs IH]; intros i; simpl.
  { split; [done|]. by intros (_ & j & c & ? & _). }
  destruct (shortcut_key (cc_choice c)) as [k|] eqn:Hk.
  - assert (shortcut_bindings use_arrow_keys (S i) cs = inl e
            ↔ use_arrow_keys = false
              ∧ ∃ j c', (c :: cs) !! j = Some c'
                  ∧ shortcut_key (cc_choice c') = None
                  ∧ (∀ j' c'', j' < j → (c :: cs) !! j' = Some c'' →
                               is_Some (shortcut_key (cc_choice c'')))
                  ∧ e = OtherError "RuntimeError"
                          (unreachable_message (title (cc_choice c'))))
      as Hrest.
    { rewrite IH. split.
      - intros (Ha & j & c' & Hj & Hnone & Hfirst & He). split; [done|].
        exists (S j), c'. repeat split; try done.
        intros [|j'] c'' Hlt Hj'; simpl in Hj'.
        + injection Hj' as <-. by rewrite Hk.
        + eapply (Hfirst j'); [lia|done].
      - intros (Ha & [|j] & c' & Hj & Hnone & Hfirst & He); simpl in Hj.
        + injection Hj as <-. congruence.
        + split; [done|]. exists j, c'. repeat split; try done.
          intros j' c'' Hlt Hj'. apply (Hfirst (S j')); [lia|done]. }
    destruct (cc_is_separator c); [done|].
    destruct (shortcut_bindings use_arrow_keys (S i) cs) as [e'|bs];
      [|split; [done|intros H; by apply Hrest in H]].
    rewrite <- Hrest. split; by intros [= ->].
  - destruct use_arrow_keys; simpl.
    + rewrite IH. split; [by intros [? _]|by intros [? _]].
    + split.
      * intros [= <-]. split; [done|]. exists 0, c.
        repeat split; try done. intros j' c' Hlt. lia.
      * intros (_ & [|j] & c' & Hj & Hnone & Hfirst & ->); simpl in Hj.
        -- by injection Hj as <-.
        -- destruct (Hfirst 0 c) as [k Hk']; [lia|done|]. congruence.
Qed.

(** X14. The loop of [select] over [ic.choices] that registers the
    shortcuts: it raises [RuntimeError] exactly when the arrow keys are off
    and some choice has no shortcut key, and the error names the first such
    choice; otherwise it registers a binding for exactly the choices that
    have a shortcut key and are no separator, each key bound to the index
    of its own choice. *)
Theorem shortcut_bindings_spec use_arrow_keys (cs : list ControlChoice) :
  (∀ e, shortcut_bindings use_arrow_keys 0 cs = inl e
        ↔ use_arrow_keys = false
          ∧ ∃ j c, cs !! j = Some c
                   ∧ shortcut_key (cc_choice c) = None
                   ∧ (∀ j' c', j' < j → cs !! j' = Some c' →
                               is_Some (shortcut_key (cc_choice c')))
                   ∧ e = OtherError "RuntimeError"
                           (unreachable_message (title (cc_choice c))))
  ∧ (∀ bs, shortcut_bindings use_arrow_keys 0 cs = inr bs →
           ∀ b, b ∈ bs
                ↔ ∃ j c k, b = (KChar k, SelectChoice j)
                           ∧ cs !! j = Some c
                           ∧ shortcut_key (cc_choice c) = Some k
                           ∧ cc_is_separator c = false).
Proof.
  split.
  - intros e. apply shortcut_bindings_raises.
  - intros bs Hbs b. by rewrite (shortcut_bindings_elem _ _ _ _ Hbs).
Qed.

(** X15. The bindings that [select] registers when no choice is out of
    reach: Control-C and Control-Q abort, Enter sets the answer and any
    other key is ignored, always; the arrow keys move the cursor exactly
    when [use_arrow_keys] is set; with [use_ij_keys] the letters bound to
    the cursor are k (down) and j (up), and the letter i is bound to
    nothing but the choice that has it as its shortcut; a shortcut binding
    is there exactly for shortcuts in use and a choice with that key. *)
Theorem select_bindings_table (use_shortcuts use_arrow_keys use_ij_keys : bool)
    (cs : list ControlChoice) (bs : list (keyspec * handler)) :
  select_bindings use_shortcuts use_arrow_keys use_ij_keys cs = inr bs →
  ((KControlC, Abort) ∈ bs ∧ (KControlQ, Abort) ∈ bs
   ∧ (KControlM, SetAnswer) ∈ bs ∧ (KAny, Other) ∈ bs)
  ∧ ((KDown, MoveCursorDown) ∈ bs ↔ use_arrow_keys = true)
  ∧ ((KUp, MoveCursorUp) ∈ bs ↔ use_arrow_keys = true)
  ∧ ((KChar "k", MoveCursorDown) ∈ bs ↔ use_ij_keys = true)
  ∧ ((KChar "j", MoveCursorUp) ∈ bs ↔ use_ij_keys = true)
  ∧ (∀ h, (KChar "i", h) ∈ bs → ∃ j, h = SelectChoice j)
  ∧ (∀ k j, (KChar k, SelectChoice j) ∈ bs
            ↔ use_shortcuts = true
              ∧ ∃ c, cs !! j = Some c
                     ∧ shortcut_key (cc_choice c) = Some k
                     ∧ cc_is_separator c = false).
Proof.
  unfold select_bindings.
  destruct (if use_shortcuts then shortcut_bindings use_arrow_keys 0 cs
            else inr []) as [e|sc] eqn:Hsc; [done|].
  intros [= <-].
  assert (∀ b, b ∈ sc
               ↔ use_shortcuts = true
                 ∧ ∃ j c k, b = (KChar k, SelectChoice j)
                            ∧ cs !! j = Some c
                            ∧ shortcut_key (cc_choice c) = Some k
                            ∧ cc_is_separator c = false) as Hin.
  { intros b. destruct use_shortcuts.
    - rewrite (shortcut_bindings_elem _ _ _ _ Hsc). naive_solver.
    - injection Hsc as <-. split; [by intros ?%elem_of_nil|by intros [? _]]. }
  assert (∀ b, b ∈ ([(KControlC, Abort); (KControlQ, Abort)]
                    ++ sc
                    ++ (if use_arrow_keys
                        then [(KDown, MoveCursorDown); (KUp, MoveCursorUp)]
                        else [])
                    ++ (if use_ij_keys
                        then [(KChar "k", MoveCursorDown);
                              (KChar "j", MoveCursorUp)]
                        else [])
                    ++ [(KControlM, SetAnswer); (KAny, Other)])%list
               ↔ b = (KControlC, Abort) ∨ b = (KControlQ, Abort)
                 ∨ b ∈ sc
                 ∨ (use_arrow_keys = true
                    ∧ (b = (KDown, MoveCursorDown) ∨ b = (KUp, MoveCursorUp)))
                 ∨ (use_ij_keys = true
                    ∧ (b = (KChar "k", MoveCursorDown)
                       ∨ b = (KChar "j", MoveCursorUp)))
                 ∨ b = (KControlM, SetAnswer) ∨ b = (KAny, Other)) as Hmem.
  { intros b. rewrite !elem_of_app, !elem_of_cons, elem_of_nil.
    destruct use_arrow_keys, use_ij_keys;
      rewrite ?elem_of_cons, ?elem_of_nil; intuition congruence. }
  assert (∀ b, b ∈ sc → ∃ k j, b = (KChar k, SelectChoice j)) as Hform.
  { intros b (_ & j & c & k & -> & _)%Hin. eauto. }
  split; [rewrite !Hmem; auto 12|].
  split; [|split; [|split; [|split; [|split]]]].
  - rewrite Hmem. split; [|intros ->; auto 12].
    intros [H|[H|[H|[[? _]|[[_ [H|H]]|[H|H]]]]]]; try done.
    by destruct (Hform _ H) as (? & ? & ?).
  - rewrite Hmem. split; [|intros ->; auto 12].
    intros [H|[H|[H|[[? _]|[[_ [H|H]]|[H|H]]]]]]; try done.
    by destruct (Hform _ H) as (? & ? & ?).
  - rewrite Hmem. split; [|intros ->; auto 12].
    intros [H|[H|[H|[[_ [H|H]]|[[? _]|[H|H]]]]]]; try done.
    by destruct (Hform _ H) as (? & ? & ?).
  - rewrite Hmem. split; [|intros ->; auto 12].
    intros [H|[H|[H|[[_ [H|H]]|[[? _]|[H|H]]]]]]; try done.
    by destruct (Hform _ H) as (? & ? & ?).
  - intros h. rewrite Hmem.
    intros [H|[H|[H|[[_ [H|H]]|[[_ [H|H]]|[H|H]]]]]]; try done.
    destruct (Hform _ H) as (? & j & [= _ ->]). eauto.
  - intros k j. rewrite Hmem, Hin. split.
    + intros [H|[H|[H|[[_ [H|H]]|[[_ [H|H]]|[H|H]]]]]]; try done.
      destruct H as (Hs & j' & c & k' & [= <- <-] & ?). eauto.
    + intros (Hs & c & Hc). do 2 right. left. split; [done|].
      exists j, c, k. by split.
Qed.

(** ** The prompt line of [select] *)

(** X16. The prompt line of [select] always has three tokens, the
    question mark, the message between two spaces, and a last one.  Once
    the question is answered the last token is the answer, whatever the
    instruction and the options; before, it is the instruction, where an
    empty instruction counts as none given and the hint of the movement
    in use is shown instead. *)
Theorem prompt_tokens_shape (qmark message : string)
    (instruction : option string) (use_shortcuts is_answered : bool)
    (t : choice_title) :
  (∃ last,
     get_prompt_tokens qmark message instruction use_shortcuts is_answered t
     = [("class:qmark", qmark);
        ("class:question", " " +:+ message +:+ " "); last]
     ∧ last.1 = (if is_answered then "class:answer"
                 else "class:instruction")%string)
  ∧ get_prompt_tokens qmark message (Some "") use_shortcuts is_answered t
    = get_prompt_tokens qmark message None use_shortcuts is_answered t
  ∧ (∀ instruction' use_shortcuts',
       get_prompt_tokens qmark message instruction use_shortcuts true t
       = get_prompt_tokens qmark message instruction' use_shortcuts' true t)
  ∧ (∀ i, instruction = Some i → i ≠ ""%string →
          get_prompt_tokens qmark message instruction use_shortcuts false t
          = [("class:qmark", qmark);
             ("class:question", " " +:+ message +:+ " ");
             ("class:instruction", i)]).
Proof.
  unfold get_prompt_tokens. repeat split.
  - destruct is_answered; [destruct t|destruct instruction as [[|]|]];
      simpl; eauto.
  - intros i -> Hi. by destruct i.
Qed.

(** ** More theorems at the example forms *)

Lemma shade_color_runs :
  unsafe_ask (shade_color "blue") false s0 = Some shade_color_run.
Proof. vm_compute. reflexivity. Qed.

Lemma shade_color_distinct_keys :
  NoDup (key <$> form_fields (shade_color "blue")).
Proof. apply (bool_decide_unpack _). vm_compute. exact I. Qed.

Lemma unsafe_ask_pass_bound_witness :
  ∃ r, unsafe_ask (shade_color "blue") false s0 = Some r
       ∧ length (passes r) ≤ size (field_keys (shade_color "blue"))
       ∧ size (field_keys (shade_color "blue"))
         ≤ length (form_fields (shade_color "blue"))
       ∧ ∀ fuel, length (form_fields (shade_color "blue")) ≤ fuel →
                 while_loop fuel (shade_color "blue") false 0 ∅ s0 = Some r.
Proof. exact (unsafe_ask_pass_bound (shade_color "blue") false s0). Defined.

Lemma unsafe_ask_result_keys_witness :
  ∃ answers,
    unsafe_ask (shade_color "blue") false s0 = Some shade_color_run
    ∧ result shade_color_run = inr answers
    ∧ dom answers = field_keys (shade_color "blue")
    ∧ ∀ k, is_Some (answers !! k)
           ↔ ∃ f, f ∈ form_fields (shade_color "blue") ∧ key f = k.
Proof.
  eexists. split; [exact shade_color_runs|]. split; [reflexivity|].
  exact (unsafe_ask_result_keys (shade_color "blue") false s0
           shade_color_run _ shade_color_runs eq_refl).
Defined.

Lemma unsafe_ask_values_from_fields_witness :
  ∃ answers,
    unsafe_ask (shade_color "blue") false s0 = Some shade_color_run
    ∧ result shade_color_run = inr answers
    ∧ answers !! "color" = Some (VStr "red")
    ∧ ∃ f, f ∈ form_fields (shade_color "blue") ∧ key f = "color"%string
           ∧ (VStr "red" = question_default (question f)
              ∨ ∃ s1 s2,
                  question_unsafe_ask (question f) false s1
                  = (inr (VStr "red"), s2)).
Proof.
  eexists. split; [exact shade_color_runs|]. split; [reflexivity|].
  assert (<["color" := VStr "red"]>
            (<["shade" := VStr "dark"]>
               ({["color" := VStr "blue"]} : gmap string value))
          !! "color" = Some (VStr "red")) as Hk by reflexivity.
  split; [exact Hk|].
  exact (unsafe_ask_values_from_fields (shade_color "blue") false s0
           shade_color_run _ "color" (VStr "red") shade_color_runs
           eq_refl Hk).
Defined.

Lemma earlier_answers_are_defaults_witness :
  let color := mkFormField "color" (color_question "blue") in
  let earlier := [[EvPending "shade"; EvAsked "color" (inr (VStr "blue"))]] in
  let last := [EvAsked "shade" (inr (VStr "dark"));
               EvDefaulted "color" (VStr "red")] in
  ∃ answers,
    NoDup (key <$> form_fields (shade_color "blue"))
    ∧ color ∈ form_fields (shade_color "blue")
    ∧ unsafe_ask (shade_color "blue") false s0 = Some shade_color_run
    ∧ result shade_color_run = inr answers
    ∧ passes shade_color_run = (earlier ++ [last])%list
    ∧ EvAsked "color" (inr (VStr "blue")) ∈ concat earlier
    ∧ EvDefaulted "color" (VStr "red") ∈ last
    ∧ answers !! "color" = Some (VStr "red").
Proof.
  intros color earlier last.
  assert (color ∈ form_fields (shade_color "blue")) as Hf
    by (right; left).
  assert (EvAsked "color" (inr (VStr "blue")) ∈ concat earlier) as Hv
    by (right; left).
  eexists. split; [exact shade_color_distinct_keys|]. split; [exact Hf|].
  split; [exact shade_color_runs|]. split; [reflexivity|].
  split; [reflexivity|]. split; [exact Hv|].
  exact (earlier_answers_are_defaults (shade_color "blue") false s0
           shade_color_run _ earlier last color (VStr "blue")
           shade_color_distinct_keys Hf shade_color_runs eq_refl eq_refl Hv).
Defined.

Lemma last_pass_answers_are_returned_witness :
  let earlier := [[EvPending "shade"; EvAsked "color" (inr (VStr "blue"))]] in
  let last := [EvAsked "shade" (inr (VStr "dark"));
               EvDefaulted "color" (VStr "red")] in
  ∃ answers,
    NoDup (key <$> form_fields (shade_color "blue"))
    ∧ unsafe_ask (shade_color "blue") false s0 = Some shade_color_run
    ∧ result shade_color_run = inr answers
    ∧ passes shade_color_run = (earlier ++ [last])%list
    ∧ EvAsked "shade" (inr (VStr "dark")) ∈ last
    ∧ answers !! "shade" = Some (VStr "dark").
Proof.
  intros earlier last.
  assert (EvAsked "shade" (inr (VStr "dark")) ∈ last) as Hv by left.
  eexists. split; [exact shade_color_distinct_keys|].
  split; [exact shade_color_runs|]. split; [reflexivity|].
  split; [reflexivity|]. split; [exact Hv|].
  exact (last_pass_answers_are_returned (shade_color "blue") false s0
           shade_color_run _ earlier last "shade" (VStr "dark")
           shade_color_distinct_keys shade_color_runs eq_refl eq_refl Hv).
Defined.

Lemma conditions_of_unknown_keys_are_ignored_witness :
  let conds : list (string * SkipCondition) :=
    [("ghost", reads (inr "color") is_red)] in
  (∀ k, k ∈ conds.*1 → k ∉ field_keys color_and_shade)
  ∧ unsafe_ask (skip_if color_and_shade conds) false s0
    = unsafe_ask color_and_shade false s0.
Proof.
  intros conds.
  assert (∀ k, k ∈ conds.*1 → k ∉ field_keys color_and_shade) as Hk.
  { intros k Hin. apply list_elem_of_singleton in Hin as ->.
    apply (bool_decide_unpack _). vm_compute. exact I. }
  split; [exact Hk|].
  exact (conditions_of_unknown_keys_are_ignored color_and_shade conds
           false s0 Hk).
Defined.

Lemma skip_if_registers_witness :
  let never : SkipCondition := λ _, inr false in
  let always : SkipCondition := λ _, inr true in
  (("shade" ∉ (([] : list (string * SkipCondition)).*1))
   ∧ skip_conditions
       (skip_if color_and_shade [("shade", never); ("shade", always)])
       !! "shade" = Some always)
  ∧ (("color" ∉ ([("shade", never)].*1))
     ∧ skip_conditions (skip_if color_and_shade [("shade", never)])
         !! "color" = skip_conditions color_and_shade !! "color").
Proof.
  intros never always.
  assert ("shade" ∉ (([] : list (string * SkipCondition)).*1)) as H1
    by apply not_elem_of_nil.
  assert ("color" ∉ ([("shade", never)].*1)) as H2.
  { apply (bool_decide_unpack _). vm_compute. exact I. }
  split.
  - split; [exact H1|].
    exact (proj1 (proj2 (proj2
             (skip_if_registers color_and_shade [("shade", never)] [])))
             "shade" always H1).
  - split; [exact H2|].
    exact (proj2 (proj2 (proj2
             (skip_if_registers color_and_shade [("shade", never)] [])))
             "color" H2).
Defined.

Lemma form_answers_by_keyword_witness :
  let kwargs := [("color", color_question "blue");
                 ("shade", shade_question)] in
  let vs := [VStr "blue"; VStr "dark"] in
  NoDup kwargs.*1
  ∧ ask_in_order false (form_fields (form kwargs)) s0 = Some (vs, s0)
  ∧ unsafe_ask (form kwargs) false s0
    = Some (mkRun (inr (list_to_map (zip kwargs.*1 vs))) s0
              [zip_with (λ kq v, EvAsked kq.1 (inr v)) kwargs vs])
  ∧ ∀ i k q v, kwargs !! i = Some (k, q) → vs !! i = Some v →
      (list_to_map (zip kwargs.*1 vs) : gmap string value) !! k = Some v.
Proof.
  intros kwargs vs.
  assert (NoDup kwargs.*1) as Hnd.
  { apply (bool_decide_unpack _). vm_compute. exact I. }
  split; [exact Hnd|]. split; [reflexivity|].
  exact (form_answers_by_keyword kwargs false s0 vs s0 Hnd eq_refl).
Defined.

Lemma condition_error_aborts_witness :
  let name := mkFormField "name" (answering 0 VNone (VStr "Ada")) in
  let c : SkipCondition := λ _, inl (TypeError "bad condition") in
  form_fields broken = [name]
  ∧ skip_conditions broken !! "name" = Some c
  ∧ c ∅ = inl (TypeError "bad condition")
  ∧ is_KeyError (TypeError "bad condition") = false
  ∧ unsafe_ask broken false s0
    = Some (mkRun (inl (TypeError "bad condition")) s0 [[]]).
Proof.
  intros name c.
  split; [reflexivity|]. split; [reflexivity|]. split; [reflexivity|].
  split; [reflexivity|].
  exact (condition_error_aborts broken false s0 name [] c
           (TypeError "bad condition") eq_refl eq_refl eq_refl eq_refl).
Defined.

(** ** The theorems on [select] at examples *)

Lemma select_accepts_iff_witness :
  let a := select_call "Pick" (Some [ItemText "red"; ItemText "blue"]) in
  let ic := mkInquirerControl [ItemText "red"; ItemText "blue"] None false
              false true true None in
  use_arrow_keys a || use_shortcuts a = true
  ∧ choices a = Some [ItemText "red"; ItemText "blue"]
  ∧ select [] a = inr ic.
Proof.
  intros a ic.
  split; [reflexivity|]. split; [reflexivity|].
  apply (proj2 (select_accepts_iff [] a ic)).
  split; [reflexivity|].
  exists [ItemText "red"; ItemText "blue"].
  split; [reflexivity|]. split; [discriminate|].
  split; [discriminate|]. split; [discriminate|]. reflexivity.
Defined.

Lemma select_raises_witness :
  let a := mkSelectArgs "Pick" None None true false true false true true
             None in
  (choices a = None ∧ use_shortcuts a = true ∧ use_ij_keys a = true)
  ∧ select [] a = inl (TypeError "'NoneType' object is not iterable")
  ∧ (TypeError "'NoneType' object is not iterable"
     = TypeError "'NoneType' object is not iterable"
     ∨ ∃ msg, TypeError "'NoneType' object is not iterable"
              = ValueError msg).
Proof.
  intros a.
  assert (choices a = None ∧ use_shortcuts a = true ∧ use_ij_keys a = true)
    as H by (split; [|split]; reflexivity).
  destruct (select_raises [] a) as [Hiff Hall].
  split; [exact H|]. split; [exact (proj2 Hiff H)|].
  exact (Hall _ (proj2 Hiff H)).
Defined.

Lemma shortcut_bindings_spec_witness :
  (shortcut_bindings false 0 menu_without_key
   = inl (OtherError "RuntimeError" (unreachable_message "Green"))
   ∧ false = false
   ∧ ∃ j c, menu_without_key !! j = Some c
            ∧ shortcut_key (cc_choice c) = None)
  ∧ (shortcut_bindings true 0 menu
     = inr [(KChar "r", SelectChoice 0); (KChar "b", SelectChoice 2)]
     ∧ (KChar "b", SelectChoice 2)
         ∈ [(KChar "r", SelectChoice 0); (KChar "b", SelectChoice 2)]
     ∧ ∃ j c k, (KChar "b", SelectChoice 2) = (KChar k, SelectChoice j)
                ∧ menu !! j = Some c
                ∧ shortcut_key (cc_choice c) = Some k
                ∧ cc_is_separator c = false).
Proof.
  assert (shortcut_bindings false 0 menu_without_key
          = inl (OtherError "RuntimeError" (unreachable_message "Green")))
    as H1 by reflexivity.
  assert (shortcut_bindings true 0 menu
          = inr [(KChar "r", SelectChoice 0); (KChar "b", SelectChoice 2)])
    as H2 by reflexivity.
  assert ((KChar "b", SelectChoice 2)
            ∈ [(KChar "r", SelectChoice 0); (KChar "b", SelectChoice 2)])
    as H3 by (right; left).
  split.
  - split; [exact H1|].
    destruct (proj1 (proj1 (shortcut_bindings_spec false menu_without_key)
                       _) H1) as (Ha & j & c & Hj & Hk & _).
    split; [exact Ha|]. exists j, c. split; [exact Hj|exact Hk].
  - split; [exact H2|]. split; [exact H3|].
    exact (proj1 (proj2 (shortcut_bindings_spec true menu) _ H2 _) H3).
Defined.

Lemma select_bindings_table_witness :
  let bs := [(KControlC, Abort); (KControlQ, Abort);
             (KChar "r", SelectChoice 0); (KChar "b", SelectChoice 2);
             (KDown, MoveCursorDown); (KUp, MoveCursorUp);
             (KChar "k", MoveCursorDown); (KChar "j", MoveCursorUp);
             (KControlM, SetAnswer); (KAny, Other)] in
  select_bindings true true true menu = inr bs
  ∧ ((KChar "k", MoveCursorDown) ∈ bs ↔ true = true)
  ∧ (∀ h, (KChar "i", h) ∈ bs → ∃ j, h = SelectChoice j).
Proof.
  intros bs.
  assert (select_bindings true true true menu = inr bs) as H
    by reflexivity.
  destruct (select_bindings_table true true true menu bs H)
    as (_ & _ & _ & Hk & _ & Hi & _).
  split; [exact H|]. split; [exact Hk|exact Hi].
Defined.

Lemma prompt_tokens_shape_witness :
  Some "Pick one" = Some "Pick one"
  ∧ "Pick one" ≠ ""
  ∧ get_prompt_tokens "?" "Colour" (Some "Pick one") false false (inl "Red")
    = [("class:qmark", "?"); ("class:question", " Colour ");
       ("class:instruction", "Pick one")].
Proof.
  assert ("Pick one" ≠ "") as Hne by discriminate.
  split; [reflexivity|]. split; [exact Hne|].
  exact (proj2 (proj2 (proj2
           (prompt_tokens_shape "?" "Colour" (Some "Pick one") false false
              (inl "Red")))) "Pick one" eq_refl Hne).
Defined.
